(** * Reference-counted handles and the MRU cache of azure-c-shared-utility

    A shallow embedding of [smart_ptr.c] and [mru_cache.c] (both found in
    [src/src/smart_ptr.c]) together with the properties of the two
    components: the reference count protocol of [SMART_PTR] and the
    ordering, capacity and expiry behaviour of [MRU_CACHE].

    Conventions of the embedding:
    - a C [int] is a [Z] kept in the 32-bit two's complement range by
      [wrap_int]; pointers to plain data and function pointers are [Z]
      with [0] for [NULL];
    - a handle that may be [NULL] is an [option];
    - the heap of shared [SMART_PTR_REF] blocks, the live locks, the trace
      of destructor calls, the clock and the outcomes of the fallible
      external calls are gathered in a [World] that every operation
      threads through. *)

From Stdlib Require Import ZArith Lia Ascii String.
From stdpp Require Import gmap strings list.

Local Open Scope Z_scope.

(** ** Machine integers *)

Definition INT_MIN : Z := - 2 ^ 31.
Definition INT_MAX : Z := 2 ^ 31 - 1.

(** Result of an [int] operation, reduced to 32 bits two's complement. *)
Definition wrap_int (z : Z) : Z := (z + 2 ^ 31) mod 2 ^ 32 - 2 ^ 31.

Definition in_int (z : Z) : Prop := INT_MIN <= z <= INT_MAX.

(** ** The world around the code *)

(** [SMART_PTR_REF]: the state shared by all copies of a smart pointer. *)
Record SMART_PTR_REF := mkRef {
  refCount : Z;
  data : Z;
  freeFunc : Z
}.

(** [SMART_PTR]: one handle object; [lock] and [ref] are addresses,
    [0] when the field is [NULL]. *)
Record SMART_PTR := mkPtr {
  lock : Z;
  ref : Z
}.

Inductive LOCK_RESULT := LOCK_OK | LOCK_ERROR.

Record World := mkWorld {
  refs : gmap Z SMART_PTR_REF;  (* heap: address -> SMART_PTR_REF block *)
  locks : gset Z;               (* lock handles that are initialised *)
  freed : list (Z * Z);         (* calls freeFunc(data) made so far, oldest first *)
  clock : Z;                    (* seconds returned by time / get_time *)
  allocs : list bool;           (* outcomes of the next allocations *)
  acquires : list bool;         (* outcomes of the next Lock calls *)
  releases : list bool          (* outcomes of the next Unlock calls *)
}.

Definition with_refs (w : World) (m : gmap Z SMART_PTR_REF) : World :=
  mkWorld m (locks w) (freed w) (clock w) (allocs w) (acquires w) (releases w).
Definition with_locks (w : World) (s : gset Z) : World :=
  mkWorld (refs w) s (freed w) (clock w) (allocs w) (acquires w) (releases w).
Definition with_freed (w : World) (t : list (Z * Z)) : World :=
  mkWorld (refs w) (locks w) t (clock w) (allocs w) (acquires w) (releases w).
Definition with_allocs (w : World) (s : list bool) : World :=
  mkWorld (refs w) (locks w) (freed w) (clock w) s (acquires w) (releases w).
Definition with_acquires (w : World) (s : list bool) : World :=
  mkWorld (refs w) (locks w) (freed w) (clock w) (allocs w) s (releases w).
Definition with_releases (w : World) (s : list bool) : World :=
  mkWorld (refs w) (locks w) (freed w) (clock w) (allocs w) (acquires w) s.

(** Outcome of the next fallible call of one kind: the head of its script;
    an exhausted script means the call succeeds. *)
Definition draw (s : list bool) : bool * list bool :=
  match s with
  | [] => (true, [])
  | b :: s' => (b, s')
  end.

(** Modelled from the spec: [malloc] and [calloc] of the C library, an
    allocation that either succeeds or returns [NULL]. *)
Definition malloc (w : World) : bool * World :=
  let '(ok, s) := draw (allocs w) in (ok, with_allocs w s).

(** Modelled from the spec: [Lock] of lock.h (not in the sources), the
    acquire of the mutual-exclusion primitive, which reports [LOCK_ERROR]
    on an error of the underlying system. *)
Definition Lock (w : World) (l : Z) : LOCK_RESULT * World :=
  let '(ok, s) := draw (acquires w) in
  (if ok then LOCK_OK else LOCK_ERROR, with_acquires w s).

(** Modelled from the spec: [Unlock] of lock.h (not in the sources). *)
Definition Unlock (w : World) (l : Z) : LOCK_RESULT * World :=
  let '(ok, s) := draw (releases w) in
  (if ok then LOCK_OK else LOCK_ERROR, with_releases w s).

(** Modelled from the spec: [Lock_Init] of lock.h (not in the sources);
    returns a new lock handle, or [NULL] when the allocation fails. *)
Definition Lock_Init (w : World) : Z * World :=
  let '(ok, w1) := malloc w in
  if ok then
    let l := fresh ({[0]} ∪ locks w1) in
    (l, with_locks w1 ({[l]} ∪ locks w1))
  else (0, w1).

(** Modelled from the spec: [Lock_Deinit] of lock.h (not in the sources). *)
Definition Lock_Deinit (w : World) (l : Z) : World :=
  with_locks w (locks w ∖ {[l]}).

(** ** smart_ptr.c *)

(** [free_ref]: runs the destructor on the payload and frees the block.
    [ref] is the address of the block; an address with no block behind it
    is left alone. *)
Definition free_ref (w : World) (ref : Z) : World :=
  if ref =? 0 then w
  else
    match refs w !! ref with
    | None => w
    | Some r =>
        let w1 := with_freed w (freed w ++ [(freeFunc r, data r)]) in
        with_refs w1 (delete ref (refs w1))
    end.

(** [SMART_PTR_delete]. The result of [Lock] is not looked at. A [ref]
    that points to no block (a dangling pointer, undefined in C) is
    treated like a [NULL] one. *)
Definition SMART_PTR_delete (w : World) (handle : option SMART_PTR) : World :=
  match handle with
  | None => w
  | Some h =>
      let w1 := if lock h =? 0 then w else snd (Lock w (lock h)) in
      let '(rc, w2) :=
        if ref h =? 0 then (0, w1)
        else
          match refs w1 !! ref h with
          | None => (0, w1)
          | Some r =>
              let rc := wrap_int (refCount r - 1) in
              let w' := with_refs w1 (<[ref h := mkRef rc (data r) (freeFunc r)]> (refs w1)) in
              if rc =? 0 then (rc, free_ref w' (ref h)) else (rc, w')
          end in
      if lock h =? 0 then w2
      else
        let w3 := snd (Unlock w2 (lock h)) in
        if rc =? 0 then Lock_Deinit w3 (lock h) else w3
  end.

(** [SMART_PTR_create]. *)
Definition SMART_PTR_create (w : World) (ptr : Z) (freeFunc : Z) : World * option SMART_PTR :=
  if freeFunc =? 0 then (w, None)
  else
    let '(ok, w1) := malloc w in
    if negb ok then (w1, None)
    else
      let '(l, w2) := Lock_Init w1 in
      if l =? 0 then (SMART_PTR_delete w2 (Some (mkPtr 0 0)), None)
      else
        let '(ok', w3) := malloc w2 in
        if negb ok' then (SMART_PTR_delete w3 (Some (mkPtr l 0)), None)
        else
          let a := fresh ({[0]} ∪ dom (refs w3)) in
          (with_refs w3 (<[a := mkRef 1 ptr freeFunc]> (refs w3)), Some (mkPtr l a)).

(** Address of the C library's [free], the destructor [SMART_PTR_new]
    installs. Any non-null value serves. *)
Definition libc_free : Z := 1.

(** [SMART_PTR_new]. *)
Definition SMART_PTR_new (w : World) : World * option SMART_PTR :=
  SMART_PTR_create w 0 libc_free.

(** [copy->ref->refCount++] *)
Definition incr_refCount (r : SMART_PTR_REF) : SMART_PTR_REF :=
  mkRef (wrap_int (refCount r + 1)) (data r) (freeFunc r).

(** [SMART_PTR_copy]. *)
Definition SMART_PTR_copy (w : World) (handle : option SMART_PTR) : World * option SMART_PTR :=
  match handle with
  | None => (w, None)
  | Some h =>
      let '(ok, w1) := malloc w in
      if negb ok then (w1, None)
      else
        let copy := mkPtr (lock h) (ref h) in
        let '(lockResult, w2) := Lock w1 (lock h) in
        match lockResult with
        | LOCK_ERROR => (w2, None)
        | LOCK_OK =>
            let w3 := with_refs w2 (alter incr_refCount (ref copy) (refs w2)) in
            let w4 := snd (Unlock w3 (lock h)) in
            (w4, Some copy)
        end
  end.

(** [SMART_PTR_get]. *)
Definition SMART_PTR_get (w : World) (handle : option SMART_PTR) : World * Z :=
  match handle with
  | None => (w, 0)
  | Some h =>
      let '(ret, w1) := Lock w (lock h) in
      match ret with
      | LOCK_ERROR => (w1, 0)
      | LOCK_OK =>
          let ptr := match refs w1 !! ref h with Some r => data r | None => 0 end in
          let '(ret', w2) := Unlock w1 (lock h) in
          match ret' with
          | LOCK_ERROR => (w2, 0)
          | LOCK_OK => (w2, ptr)
          end
      end
  end.

(** [SMART_PTR_has_value]. *)
Definition SMART_PTR_has_value (w : World) (handle : option SMART_PTR) : World * bool :=
  let '(w1, ptr) := SMART_PTR_get w handle in (w1, negb (ptr =? 0)).

(** ** mru_cache.c *)

Definition MRU_CACHE_MAX_ID_LEN : Z := 300.

(** [__FAILURE__] expands to the number of the source line it stands on,
    which is never zero; one non-zero value stands for all of them. *)
Definition FAILURE : Z := 1.

(** A C string is the [string] of the bytes in front of its terminating
    NUL. *)

(** Modelled from the spec: [strlen] of the C library. *)
Definition strlen (s : string) : Z := Z.of_nat (String.length s).

Definition uchar (c : ascii) : Z := Z.of_N (Ascii.N_of_ascii c).

(** Modelled from the spec: [strncmp] of the C library, the byte-for-byte
    comparison of at most [n] bytes; zero when no difference is met. *)
Fixpoint strncmp (s1 s2 : string) (n : nat) : Z :=
  match n with
  | O => 0
  | S n' =>
      match s1, s2 with
      | EmptyString, EmptyString => 0
      | EmptyString, String c2 _ => - uchar c2
      | String c1 _, EmptyString => uchar c1
      | String c1 r1, String c2 r2 =>
          if Ascii.eqb c1 c2 then strncmp r1 r2 n' else uchar c1 - uchar c2
      end
  end.

(** [MRU_CACHE_ENTRY]. The [link] field is the membership of the entry in
    the cache's list and has no counterpart here; [entry_id] is the field
    [id], which is never [NULL] for an entry that sits in the list. *)
Record MRU_CACHE_ENTRY := mkEntry {
  entry_id : string;
  dataHandle : option SMART_PTR;
  created : Z;
  expiryInSec : Z
}.

(** [MRU_CACHE]. [dlist] is the field [list]: the entries in the order of
    the doubly linked list, from [list.Flink] (most recently used) to
    [list.Blink]. *)
Record MRU_CACHE := mkCache {
  maxItems : Z;
  numItems : Z;
  dlist : list MRU_CACHE_ENTRY
}.

(** A pointer to an entry that sits in the list is its position there,
    paired with the entry found at that position. *)
Definition entry_ptr : Type := nat * MRU_CACHE_ENTRY.

(** [free_entry], applied to an entry whose [dataHandle] is given: the
    entry and its id are plain memory, the handle is released. *)
Definition free_entry (w : World) (dataHandle : option SMART_PTR) : World :=
  SMART_PTR_delete w dataHandle.

(** [remove_entry]: [DList_RemoveEntryList] unlinks the node, wherever it
    is; the count goes down by one. *)
Definition remove_entry (instance : MRU_CACHE) (entry : option entry_ptr) : MRU_CACHE :=
  match entry with
  | None => instance
  | Some (i, _) =>
      mkCache (maxItems instance) (wrap_int (numItems instance - 1))
              (delete i (dlist instance))
  end.

(** [insert_at_start]: [DList_InsertHeadList] followed by the increment. *)
Definition insert_at_start (instance : MRU_CACHE) (entry : option MRU_CACHE_ENTRY) : MRU_CACHE :=
  match entry with
  | None => instance
  | Some e =>
      mkCache (maxItems instance) (wrap_int (numItems instance + 1))
              (e :: dlist instance)
  end.

(** Modelled from the spec: [get_time] and [time] of agenttime.h, the
    wall clock, in seconds. The clock is read from the world a call is
    made in and stands still for the duration of that one call. *)
Definition get_time (w : World) : Z := clock w.

(** Modelled from the spec: [get_difftime] of agenttime.h, the seconds
    elapsed between two times. The C function returns the difference as a
    [double]; the differences of second counts are integers, which a
    [double] holds exactly, so the comparison with an [int] is the
    comparison of the integers. *)
Definition get_difftime (stop start : Z) : Z := stop - start.

(** [is_expired]. *)
Definition is_expired (w : World) (entry : MRU_CACHE_ENTRY) : bool :=
  if expiryInSec entry <? 0 then false
  else
    let now := get_time w in
    let deltaInSec := get_difftime now (created entry) in
    expiryInSec entry <? deltaInSec.

(** [find], as [MRU_CACHE_add] and [get_from_cache] call it: the output
    parameter [entry] is the address of a local variable that holds
    [NULL], so the third check ([entry == NULL]) passes and the second
    component is what that variable holds after the call
    ([find_with_slot] below has the output parameter itself). The loop
    body ends in an unconditional [break], so it is run for the first node
    only: the list is either empty (the loop is not entered) or its first
    entry is compared and the loop is left. *)
Definition find (id : option string) (list : option (list MRU_CACHE_ENTRY))
  : Z * option entry_ptr :=
  match id, list with
  | None, _ => (FAILURE, None)
  | Some _, None => (FAILURE, None)
  | Some id, Some l =>
      match l with
      | [] => (0, None)
      | current :: _ =>
          let comp := strncmp id (entry_id current) (Z.to_nat MRU_CACHE_MAX_ID_LEN) in
          (0, if comp =? 0 then Some (0%nat, current) else None)
      end
  end.

(** [find] with its output parameter: [entry] is [None] for a [NULL]
    pointer, otherwise the content of the variable it points to; the
    content after the call is returned with the status. The three checks
    fail before [*entry] is written, so a failure leaves it as it was. *)
Definition find_with_slot (id : option string) (list : option (list MRU_CACHE_ENTRY))
    (entry : option (option entry_ptr)) : Z * option (option entry_ptr) :=
  match id, list, entry with
  | None, _, _ => (FAILURE, entry)
  | Some _, None, _ => (FAILURE, entry)
  | Some _, Some _, None => (FAILURE, entry)
  | Some id, Some l, Some _ =>
      match l with
      | [] => (0, Some None)
      | current :: _ =>
          let comp := strncmp id (entry_id current) (Z.to_nat MRU_CACHE_MAX_ID_LEN) in
          (0, Some (if comp =? 0 then Some (0%nat, current) else None))
      end
  end.

(** The lookup as the specification words it: a linear scan of the whole
    sequence, comparing [id] byte-for-byte up to 300 bytes, first match
    wins. [i] is the position of the head of [l] in the cache's list. *)
Fixpoint find_spec_from (i : nat) (id : string) (l : list MRU_CACHE_ENTRY) : option entry_ptr :=
  match l with
  | [] => None
  | current :: rest =>
      if strncmp id (entry_id current) (Z.to_nat MRU_CACHE_MAX_ID_LEN) =? 0
      then Some (i, current)
      else find_spec_from (S i) id rest
  end.

Definition find_spec (id : string) (l : list MRU_CACHE_ENTRY) : option entry_ptr :=
  find_spec_from 0 id l.

(** [MRU_CACHE_new]. [calloc] zeroes the count; [DList_InitializeListHead]
    makes the list empty. *)
Definition MRU_CACHE_new (w : World) (maxItems : Z) : World * option MRU_CACHE :=
  if maxItems <? 0 then (w, None)
  else
    let '(ok, w1) := malloc w in
    if ok then (w1, Some (mkCache maxItems 0 [])) else (w1, None).

(** The end of [MRU_CACHE_add], from [insert_at_start] on: the entry goes
    to the front and, over capacity, the entry at [list.Blink] is removed
    and freed. *)
Definition insert_and_evict (w : World) (instance : MRU_CACHE) (entry : MRU_CACHE_ENTRY)
  : MRU_CACHE * World :=
  let instance1 := insert_at_start instance (Some entry) in
  if maxItems instance1 <? numItems instance1 then
    match last (dlist instance1) with
    | None => (instance1, w)
    | Some lastEntry =>
        let i := (length (dlist instance1) - 1)%nat in
        (remove_entry instance1 (Some (i, lastEntry)),
         free_entry w (dataHandle lastEntry))
    end
  else (instance1, w).

(** [MRU_CACHE_add]. The result is the status, the cache behind [handle]
    after the call, and the world. *)
Definition MRU_CACHE_add (w : World) (handle : option MRU_CACHE) (id : option string)
    (data : option SMART_PTR) (expiryTimeSec : Z) : Z * option MRU_CACHE * World :=
  match handle, id with
  | None, _ => (FAILURE, handle, w)
  | Some _, None => (FAILURE, handle, w)
  | Some instance, Some id_ =>
      if MRU_CACHE_MAX_ID_LEN <? strlen id_ then (FAILURE, handle, w)
      else
        let '(w1, has) := SMART_PTR_has_value w data in
        if negb has then (0, handle, w1)
        else
          let '(ret, entry) := find id (Some (dlist instance)) in
          if negb (ret =? 0) then (FAILURE, handle, w1)
          else
            match entry with
            | None =>
                let '(ok, w2) := malloc w1 in
                if negb ok then (FAILURE, handle, w2)
                else
                  let created_ := get_time w2 in
                  let '(w3, copy) := SMART_PTR_copy w2 data in
                  match copy with
                  | None => (FAILURE, handle, free_entry w3 None)
                  | Some _ =>
                      let '(ok', w4) := malloc w3 in
                      if negb ok' then (FAILURE, handle, free_entry w4 copy)
                      else
                        let e := mkEntry id_ copy created_ expiryTimeSec in
                        let '(instance', w5) := insert_and_evict w4 instance e in
                        (0, Some instance', w5)
                  end
            | Some (i, current) =>
                let '(w2, copy) := SMART_PTR_copy w1 data in
                match copy with
                | None => (FAILURE, handle, w2)
                | Some _ =>
                    let w3 :=
                      match dataHandle current with
                      | None => w2
                      | Some _ => SMART_PTR_delete w2 (dataHandle current)
                      end in
                    let e := mkEntry (entry_id current) copy (get_time w3) expiryTimeSec in
                    let instance1 := remove_entry instance (Some (i, current)) in
                    let '(instance', w4) := insert_and_evict w3 instance1 e in
                    (0, Some instance', w4)
                end
            end
  end.

(** [get_from_cache]. [data] is the output slot: [None] for a [NULL]
    pointer, otherwise the handle it holds; the slot after the call is
    returned with the status. *)
Definition get_from_cache (w : World) (handle : option MRU_CACHE) (includeExpired : bool)
    (id : option string) (data : option (option SMART_PTR))
  : Z * option MRU_CACHE * option (option SMART_PTR) * World :=
  match handle, id, data with
  | None, _, _ => (FAILURE, handle, data, w)
  | Some _, None, _ => (FAILURE, handle, data, w)
  | Some instance, Some id_, _ =>
      if MRU_CACHE_MAX_ID_LEN <? strlen id_ then (FAILURE, handle, data, w)
      else
        match data with
        | None => (FAILURE, handle, data, w)
        | Some _ =>
            let '(ret, entry) := find id (Some (dlist instance)) in
            if negb (ret =? 0) then (FAILURE, handle, data, w)
            else
              match entry with
              | None => (0, handle, Some None, w)
              | Some (i, current) =>
                  if negb includeExpired && is_expired w current
                  then (0, handle, Some None, w)
                  else
                    let instance1 := remove_entry instance entry in
                    let instance2 := insert_at_start instance1 (Some current) in
                    let '(w1, copy) := SMART_PTR_copy w (dataHandle current) in
                    (0, Some instance2, Some copy, w1)
              end
        end
  end.

Definition MRU_CACHE_get w handle id data := get_from_cache w handle false id data.

Definition MRU_CACHE_get_include_expired w handle id data :=
  get_from_cache w handle true id data.

(** [MRU_CACHE_size]. [size] is the output slot, as for [get_from_cache]. *)
Definition MRU_CACHE_size (handle : option MRU_CACHE) (size : option Z) : Z * option Z :=
  match handle, size with
  | None, _ => (FAILURE, size)
  | Some _, None => (FAILURE, size)
  | Some instance, Some _ => (0, Some (numItems instance))
  end.

(** The loop of [MRU_CACHE_prune] from node [current] on: [l] is the part
    of the list still to visit, [n] the count so far. The survivors keep
    their links, so they come out in the order they were in. *)
Fixpoint prune_loop (w : World) (l : list MRU_CACHE_ENTRY) (n : Z)
  : World * list MRU_CACHE_ENTRY * Z :=
  match l with
  | [] => (w, [], n)
  | entry :: rest =>
      if is_expired w entry then
        prune_loop (free_entry w (dataHandle entry)) rest (wrap_int (n - 1))
      else
        let '(w', l', n') := prune_loop w rest n in (w', entry :: l', n')
  end.

(** [MRU_CACHE_prune]. *)
Definition MRU_CACHE_prune (w : World) (handle : option MRU_CACHE) : Z * option MRU_CACHE * World :=
  match handle with
  | None => (FAILURE, handle, w)
  | Some instance =>
      let '(w', l', n') := prune_loop w (dlist instance) (numItems instance) in
      (0, Some (mkCache (maxItems instance) n' l'), w')
  end.

(** The loop of [MRU_CACHE_clear]. *)
Fixpoint clear_loop (w : World) (l : list MRU_CACHE_ENTRY) : World :=
  match l with
  | [] => w
  | entry :: rest => clear_loop (free_entry w (dataHandle entry)) rest
  end.

(** [MRU_CACHE_clear]. *)
Definition MRU_CACHE_clear (w : World) (handle : option MRU_CACHE) : Z * option MRU_CACHE * World :=
  match handle with
  | None => (FAILURE, handle, w)
  | Some instance =>
      let w' := clear_loop w (dlist instance) in
      (0, Some (mkCache (maxItems instance) 0 []), w')
  end.

(** ** Sequences of cache operations *)

(** What a caller can do to a cache between its creation and its deletion. *)
Inductive cache_op :=
| OpAdd (id : option string) (data : option SMART_PTR) (expiryTimeSec : Z)
| OpGet (includeExpired : bool) (id : option string) (data : option (option SMART_PTR))
| OpPrune
| OpClear.

(** One call on the cache [c]; the cache after the call. The handle passed
    is never [NULL] here, so the calls hand a cache back. *)
Definition run_op (w : World) (c : MRU_CACHE) (op : cache_op) : MRU_CACHE :=
  let handle' :=
    match op with
    | OpAdd id data expiryTimeSec => (MRU_CACHE_add w (Some c) id data expiryTimeSec).1.2
    | OpGet includeExpired id data => (get_from_cache w (Some c) includeExpired id data).1.1.2
    | OpPrune => (MRU_CACHE_prune w (Some c)).1.2
    | OpClear => (MRU_CACHE_clear w (Some c)).1.2
    end in
  default c handle'.

(** The caches a program can hold: made by [MRU_CACHE_new k], then any
    calls, each in whatever world the program is in at that time. *)
Inductive reachable (k : Z) : MRU_CACHE -> Prop :=
| reach_new w w' c :
    MRU_CACHE_new w k = (w', Some c) -> reachable k c
| reach_op w c op :
    reachable k c -> reachable k (run_op w c op).

(** The world makes no call fail. *)
Definition no_faults (w : World) : Prop :=
  Forall (eq true) (allocs w) /\ Forall (eq true) (acquires w) /\
  Forall (eq true) (releases w).

(** The handle has no payload to give: it is [NULL], or the block it
    shares holds a [NULL] payload. *)
Definition no_payload (w : World) (handle : option SMART_PTR) : Prop :=
  match handle with
  | None => True
  | Some h => exists r, refs w !! ref h = Some r /\ data r = 0
  end.

(** What every reachable cache satisfies. The count equals the length of
    the list as long as the capacity leaves the increment of the count
    room below [INT_MAX]. *)
Definition cache_inv (k : Z) (c : MRU_CACHE) : Prop :=
  maxItems c = k /\ in_int (numItems c) /\ numItems c <= k /\
  (k < INT_MAX -> numItems c = Z.of_nat (length (dlist c))).

(** The handle [h] stands on a block that holds the payload [p] and whose
    count says that [h] is one of its owners, with room for one more. *)
Definition live_handle (w : World) (h : SMART_PTR) (p : Z) : Prop :=
  exists r, refs w !! ref h = Some r /\ data r = p /\ 1 <= refCount r < INT_MAX.

(** [MRU_CACHE_delete]: the entries are cleared, then the cache itself is
    freed; the handle is of no use afterwards, so the world is all that
    is left. *)
Definition MRU_CACHE_delete (w : World) (handle : option MRU_CACHE) : World :=
  match handle with
  | None => w
  | Some instance => (MRU_CACHE_clear w (Some instance)).2
  end.

(** [n] calls of [SMART_PTR_delete], one after the other, each on a handle
    object on the lock and block of [h]. *)
Fixpoint delete_times (n : nat) (w : World) (h : SMART_PTR) : World :=
  match n with
  | O => w
  | S n' => delete_times n' (SMART_PTR_delete w (Some h)) h
  end.

(** An entry as [MRU_CACHE_add] makes them: an id within the length bound
    and a handle that is not [NULL]. *)
Definition entry_ok (e : MRU_CACHE_ENTRY) : Prop :=
  strlen (entry_id e) <= MRU_CACHE_MAX_ID_LEN /\ dataHandle e <> None.

(** The arguments [get_from_cache] accepts. *)
Definition get_args_ok (handle : option MRU_CACHE) (id : option string)
    (data : option (option SMART_PTR)) : Prop :=
  handle <> None /\ data <> None /\
  exists id_, id = Some id_ /\ strlen id_ <= MRU_CACHE_MAX_ID_LEN.

(** The arguments [MRU_CACHE_add] accepts. *)
Definition add_args_ok (handle : option MRU_CACHE) (id : option string) : Prop :=
  handle <> None /\
  exists id_, id = Some id_ /\ strlen id_ <= MRU_CACHE_MAX_ID_LEN.

(** No NUL byte inside: the string stands for a C string as it is. *)
Fixpoint no_nul (s : string) : bool :=
  match s with
  | EmptyString => true
  | String c r => negb (Ascii.eqb c Ascii.zero) && no_nul r
  end.

(** A run of adds, one after the other: each step gives the world the
    call is made in and the id added; the handle and the expiry are the
    same throughout. *)
Fixpoint add_seq (c : MRU_CACHE) (h : SMART_PTR) (expiryTimeSec : Z)
    (steps : list (World * string)) : MRU_CACHE :=
  match steps with
  | [] => c
  | (w, id) :: rest =>
      add_seq (run_op w c (OpAdd (Some id) (Some h) expiryTimeSec)) h expiryTimeSec rest
  end.

(** A step of [add_seq] in which the add has what it needs: a world
    without faults, a live handle, and a C string of at most 300 bytes. *)
Definition good_step (h : SMART_PTR) (p : Z) (step : World * string) : Prop :=
  no_faults step.1 /\ live_handle step.1 h p /\
  strlen step.2 <= MRU_CACHE_MAX_ID_LEN /\ no_nul step.2 = true.

(** * Properties *)

(** ** Machine integers *)

Lemma wrap_int_id z : in_int z -> wrap_int z = z.
Proof.
  unfold in_int, INT_MIN, INT_MAX, wrap_int. intros H.
  rewrite Z.mod_small; lia.
Qed.

Lemma wrap_int_range z : in_int (wrap_int z).
Proof.
  unfold in_int, INT_MIN, INT_MAX, wrap_int.
  pose proof (Z.mod_pos_bound (z + 2 ^ 31) (2 ^ 32) ltac:(lia)). lia.
Qed.

Lemma wrap_int_pred_succ z : in_int z -> wrap_int (wrap_int (z + 1) - 1) = z.
Proof.
  unfold in_int, INT_MIN, INT_MAX, wrap_int. intros H.
  replace (((z + 1 + 2 ^ 31) mod 2 ^ 32 - 2 ^ 31 - 1 + 2 ^ 31)) with
    ((z + 1 + 2 ^ 31) mod 2 ^ 32 - 1) by lia.
  rewrite Zminus_mod_idemp_l.
  replace (z + 1 + 2 ^ 31 - 1) with (z + 2 ^ 31) by lia.
  rewrite Z.mod_small; lia.
Qed.

Lemma wrap_int_succ_pred z : in_int z -> wrap_int (wrap_int (z - 1) + 1) = z.
Proof.
  unfold in_int, INT_MIN, INT_MAX, wrap_int. intros H.
  replace (((z - 1 + 2 ^ 31) mod 2 ^ 32 - 2 ^ 31 + 1 + 2 ^ 31)) with
    ((z - 1 + 2 ^ 31) mod 2 ^ 32 + 1) by lia.
  rewrite Zplus_mod_idemp_l.
  replace (z - 1 + 2 ^ 31 + 1) with (z + 2 ^ 31) by lia.
  rewrite Z.mod_small; lia.
Qed.

(** ** Reference counts *)

(** The fallible calls only consume their scripts. *)
Ltac case_draw :=
  repeat match goal with
  | |- context [draw ?s] => destruct (draw s) as [[] ?]; simpl
  | H : context [draw ?s] |- _ => destruct (draw s) as [[] ?]; simpl in H
  end.

Lemma alter_incr_lookup (m : gmap Z SMART_PTR_REF) a r :
  m !! a = Some r -> alter incr_refCount a m !! a = Some (incr_refCount r).
Proof. intros H. rewrite lookup_alter_eq, H. reflexivity. Qed.

(** Whatever makes [SMART_PTR_copy] return [NULL], the heap and the trace
    of destructor calls are as before. *)
Lemma SMART_PTR_copy_None w handle :
  (SMART_PTR_copy w handle).2 = None ->
  refs (SMART_PTR_copy w handle).1 = refs w /\
  freed (SMART_PTR_copy w handle).1 = freed w.
Proof.
  destruct handle as [h|]; simpl; [|done].
  unfold malloc, Lock, Unlock. case_draw; done.
Qed.

(** A successful copy is a handle on the same lock and block, whose count
    went up by one. *)
Lemma SMART_PTR_copy_Some w handle w' c :
  SMART_PTR_copy w handle = (w', Some c) ->
  handle = Some c /\
  refs w' = alter incr_refCount (ref c) (refs w) /\
  freed w' = freed w /\ clock w' = clock w.
Proof.
  destruct handle as [h|]; simpl; [|done].
  unfold malloc, Lock, Unlock. case_draw; intros [= <- <-]; destruct h; done.
Qed.

(** What [SMART_PTR_delete] does to a handle whose block is on the heap:
    the count goes down by one, and the destructor is called, with the
    payload, exactly when the count arrives at zero; the block is then
    gone. *)
Lemma SMART_PTR_delete_block w h r :
  ref h <> 0 -> refs w !! ref h = Some r ->
  let w' := SMART_PTR_delete w (Some h) in
  let rc := wrap_int (refCount r - 1) in
  if rc =? 0
  then freed w' = freed w ++ [(freeFunc r, data r)] /\ refs w' = delete (ref h) (refs w)
  else freed w' = freed w /\ refs w' = <[ref h := mkRef rc (data r) (freeFunc r)]> (refs w).
Proof.
  intros Hnz Hr. simpl. apply Z.eqb_neq in Hnz. rewrite Hnz.
  assert (Hw1 : refs (if lock h =? 0 then w else (Lock w (lock h)).2) = refs w
                /\ freed (if lock h =? 0 then w else (Lock w (lock h)).2) = freed w).
  { unfold Lock. destruct (lock h =? 0); [done|]. case_draw; done. }
  destruct Hw1 as [Hw1 Hf1].
  set (w1 := if lock h =? 0 then w else (Lock w (lock h)).2) in *.
  rewrite Hw1, Hr.
  destruct (wrap_int (refCount r - 1) =? 0) eqn:Hrc.
  - unfold free_ref. rewrite Hnz. simpl. rewrite lookup_insert_eq. simpl.
    rewrite ?Hw1, ?Hf1, ?Hrc, delete_insert_eq.
    destruct (lock h =? 0); [done|]. unfold Unlock. case_draw; done.
  - simpl. rewrite ?Hrc.
    destruct (lock h =? 0); simpl; [by rewrite ?Hw1, ?Hf1|].
    unfold Unlock. case_draw; by rewrite ?Hw1, ?Hf1.
Qed.

Lemma SMART_PTR_delete_live w h r :
  ref h <> 0 -> refs w !! ref h = Some r -> wrap_int (refCount r - 1) <> 0 ->
  freed (SMART_PTR_delete w (Some h)) = freed w /\
  refs (SMART_PTR_delete w (Some h)) =
    <[ref h := mkRef (wrap_int (refCount r - 1)) (data r) (freeFunc r)]> (refs w).
Proof.
  intros Hnz Hr Hrc. pose proof (SMART_PTR_delete_block w h r Hnz Hr) as H.
  cbv zeta in H. apply Z.eqb_neq in Hrc. rewrite Hrc in H. exact H.
Qed.

Lemma SMART_PTR_delete_last w h r :
  ref h <> 0 -> refs w !! ref h = Some r -> wrap_int (refCount r - 1) = 0 ->
  freed (SMART_PTR_delete w (Some h)) = freed w ++ [(freeFunc r, data r)] /\
  refs (SMART_PTR_delete w (Some h)) = delete (ref h) (refs w).
Proof.
  intros Hnz Hr Hrc. pose proof (SMART_PTR_delete_block w h r Hnz Hr) as H.
  cbv zeta in H. apply Z.eqb_eq in Hrc. rewrite Hrc in H. exact H.
Qed.

(** The clock is not in the hands of the smart pointers. *)
Lemma SMART_PTR_delete_clock w handle : clock (SMART_PTR_delete w handle) = clock w.
Proof.
  destruct handle as [h|]; [|done]. simpl.
  assert (Hw1 : clock (if lock h =? 0 then w else (Lock w (lock h)).2) = clock w).
  { unfold Lock. destruct (lock h =? 0); [done|]. case_draw; done. }
  set (w1 := if lock h =? 0 then w else (Lock w (lock h)).2) in *.
  assert (Hq : forall p : Z * World,
    clock p.2 = clock w ->
    clock (let '(rc, w2) := p in
           if lock h =? 0 then w2
           else if rc =? 0 then Lock_Deinit (Unlock w2 (lock h)).2 (lock h)
                else (Unlock w2 (lock h)).2) = clock w).
  { intros [rc w2] Hc. simpl in Hc. unfold Unlock.
    destruct (lock h =? 0); [done|]. case_draw; destruct (rc =? 0); done. }
  apply Hq.
  destruct (ref h =? 0); [done|].
  destruct (refs w1 !! ref h) as [r|]; [|done].
  destruct (wrap_int (refCount r - 1) =? 0); simpl; [|done].
  unfold free_ref. destruct (ref h =? 0); [done|]. simpl.
  rewrite lookup_insert_eq. done.
Qed.

(** A handle that [SMART_PTR_create] returns stands on a new block, at an
    address that is not [NULL], holding count 1, the payload and the
    destructor. *)
Lemma SMART_PTR_create_Some w p d w1 h :
  SMART_PTR_create w p d = (w1, Some h) ->
  d <> 0 /\ ref h <> 0 /\ refs w !! ref h = None /\
  refs w1 = <[ref h := mkRef 1 p d]> (refs w) /\ freed w1 = freed w.
Proof.
  unfold SMART_PTR_create, Lock_Init, malloc.
  destruct (d =? 0) eqn:Hd; [done|]. apply Z.eqb_neq in Hd.
  case_draw; try done;
    repeat match goal with
    | |- context [fresh ?X =? 0] => destruct (fresh X =? 0); simpl
    end; try done.
  intros [= <- <-]. simpl.
  set (X := {[0]} ∪ dom (refs w)).
  pose proof (is_fresh X) as Hfresh.
  repeat split; try done.
  - intros E. apply Hfresh. rewrite E. unfold X. set_solver.
  - apply not_elem_of_dom. intros E. apply Hfresh. unfold X. set_solver.
Qed.

(** C8: [SMART_PTR_create] refuses an absent destructor and starts the
    shared count at 1; after [create(p, d)], one copy and two deletes the
    destructor [d] has been called exactly once, with [p]: the trace of
    destructor calls is unchanged up to and including the first delete,
    where the count is back at 1, and the second delete, which takes the
    count to 0, appends the one call [d(p)] and frees the block. In
    general a delete that does not take the count of its block to 0 calls
    no destructor. *)
Theorem create_copy_two_deletes w p d w1 h w2 h2 :
  SMART_PTR_create w p d = (w1, Some h) ->
  SMART_PTR_copy w1 (Some h) = (w2, Some h2) ->
  let w3 := SMART_PTR_delete w2 (Some h) in
  let w4 := SMART_PTR_delete w3 (Some h2) in
  (forall w0 p0, SMART_PTR_create w0 p0 0 = (w0, None)) /\
  (forall w0 h0 r0,
     ref h0 <> 0 -> refs w0 !! ref h0 = Some r0 ->
     wrap_int (refCount r0 - 1) <> 0 ->
     freed (SMART_PTR_delete w0 (Some h0)) = freed w0) /\
  d <> 0 /\
  refs w1 !! ref h = Some (mkRef 1 p d) /\
  refs w2 !! ref h = Some (mkRef 2 p d) /\
  freed w2 = freed w /\
  refs w3 !! ref h = Some (mkRef 1 p d) /\
  freed w3 = freed w /\
  refs w4 !! ref h = None /\
  freed w4 = freed w ++ [(d, p)].
Proof.
  intros Hcreate Hcopy w3 w4.
  apply SMART_PTR_create_Some in Hcreate as (Hd & Hnz & _ & Hrefs1 & Hfreed1).
  apply SMART_PTR_copy_Some in Hcopy as (Hh2 & Hrefs2 & Hfreed2 & _).
  injection Hh2 as <-.
  assert (H1 : refs w1 !! ref h = Some (mkRef 1 p d)).
  { rewrite Hrefs1. apply lookup_insert_eq. }
  assert (H2 : refs w2 !! ref h = Some (mkRef 2 p d)).
  { rewrite Hrefs2. rewrite (alter_incr_lookup _ _ _ H1). reflexivity. }
  destruct (SMART_PTR_delete_live w2 h _ Hnz H2 ltac:(done)) as [Hfreed3 Hrefs3].
  fold w3 in Hfreed3, Hrefs3.
  assert (H3 : refs w3 !! ref h = Some (mkRef 1 p d)).
  { rewrite Hrefs3. apply lookup_insert_eq. }
  destruct (SMART_PTR_delete_last w3 h _ Hnz H3 ltac:(done)) as [Hfreed4 Hrefs4].
  fold w4 in Hfreed4, Hrefs4.
  split; [done|].
  split; [intros w0 h0 r0 H0 H1' H2'; by apply (SMART_PTR_delete_live w0 h0 r0)|].
  repeat split; try done; try congruence.
  - rewrite Hrefs4. apply lookup_delete_eq.
  - rewrite Hfreed4. simpl. congruence.
Qed.

(** The sequence of C8 on a concrete world: payload 42, destructor 7. *)
Lemma create_copy_two_deletes_witness :
  let w := mkWorld ∅ ∅ [] 0 [] [] [] in
  let h := mkPtr 1 1 in
  let w1 := (SMART_PTR_create w 42 7).1 in
  let w2 := (SMART_PTR_copy w1 (Some h)).1 in
  freed (SMART_PTR_delete (SMART_PTR_delete w2 (Some h)) (Some h)) = [(7, 42)].
Proof.
  intros w h w1 w2.
  assert (Hc : SMART_PTR_create w 42 7 = (w1, Some h)) by (vm_compute; reflexivity).
  assert (Hk : SMART_PTR_copy w1 (Some h) = (w2, Some h)) by (vm_compute; reflexivity).
  exact (proj2 (proj2 (proj2 (proj2 (proj2 (proj2 (proj2 (proj2 (proj2
    (create_copy_two_deletes w 42 7 w1 h w2 h Hc Hk)))))))))).
Defined.

(** C3, as the code has it: when the lock cannot be acquired,
    [SMART_PTR_copy] fails for that call (it returns [NULL]) and the
    shared block, its count included, is what it was before the call, as
    is the trace of destructor calls. [SMART_PTR_delete] returns no status
    and is not part of the statement. *)
Theorem copy_lock_failure_keeps_refCount w h s :
  acquires w = false :: s ->
  (SMART_PTR_copy w (Some h)).2 = None /\
  refs (SMART_PTR_copy w (Some h)).1 = refs w /\
  freed (SMART_PTR_copy w (Some h)).1 = freed w.
Proof.
  intros Hlock.
  assert (Hnone : (SMART_PTR_copy w (Some h)).2 = None).
  { simpl. unfold malloc, Lock. simpl.
    destruct (draw (allocs w)) as [[] ?]; simpl; [|done].
    rewrite Hlock. done. }
  split; [exact Hnone|]. by apply SMART_PTR_copy_None.
Qed.

(** A block with count 2 and a lock that refuses to be acquired. *)
Lemma copy_lock_failure_keeps_refCount_witness :
  let w := mkWorld {[1 := mkRef 2 42 7]} {[1]} [] 0 [] [false] [] in
  acquires w = [false] /\
  (SMART_PTR_copy w (Some (mkPtr 1 1))).2 = None /\
  refs (SMART_PTR_copy w (Some (mkPtr 1 1))).1 = refs w /\
  freed (SMART_PTR_copy w (Some (mkPtr 1 1))).1 = freed w.
Proof.
  intros w. split; [reflexivity|].
  apply (copy_lock_failure_keeps_refCount w (mkPtr 1 1) []). reflexivity.
Defined.

(** C3, as stated, fails for release: with a lock that cannot be acquired,
    [SMART_PTR_delete] still takes the count of the shared block from 2
    to 1. *)
Lemma delete_lock_failure_changes_refCount :
  let w := mkWorld {[1 := mkRef 2 42 7]} {[1]} [] 0 [] [false] [] in
  let h := mkPtr 1 1 in
  (Lock w (lock h)).1 = LOCK_ERROR /\
  refCount <$> refs w !! ref h = Some 2 /\
  refCount <$> refs (SMART_PTR_delete w (Some h)) !! ref h = Some 1.
Proof. vm_compute. done. Qed.

(** ** Lookup *)

(** [find] never reports an entry other than the first of the list. *)
Lemma find_front_only id l st i e :
  find id (Some l) = (st, Some (i, e)) -> i = 0%nat /\ head l = Some e.
Proof.
  unfold find. destruct id as [id|]; [|done]. destruct l as [|current rest]; [done|].
  destruct (_ =? 0); [|done]. by intros [= _ <- <-].
Qed.

(** C1 fails on the code: with the entries "a" and "b" stored in this
    order, looking up "b" reports no entry, although the scan the
    specification describes locates it at the second position. *)
Theorem find_misses_entry_behind_first :
  let l := [mkEntry "a" None 0 (-1); mkEntry "b" None 0 (-1)] in
  find (Some "b") (Some l) = (0, None) /\
  find_spec "b" l = Some (1%nat, mkEntry "b" None 0 (-1)).
Proof. vm_compute. done. Qed.

(** C2 fails on the code: in a cache of capacity 3, adding "a", then "b",
    then "a" again leaves three entries, two of which have the id "a". *)
Theorem add_present_id_behind_first_duplicates :
  let w0 := mkWorld {[1 := mkRef 1 42 7]} {[1]} [] 100 [] [] [] in
  let v := Some (mkPtr 1 1) in
  let '(_, c1, w1) := MRU_CACHE_add w0 (Some (mkCache 3 0 [])) (Some "a") v (-1) in
  let '(_, c2, w2) := MRU_CACHE_add w1 c1 (Some "b") v (-1) in
  let '(st, c3, _) := MRU_CACHE_add w2 c2 (Some "a") v (-1) in
  st = 0 /\
  (fun c => map entry_id (dlist c)) <$> c3 = Some ["a"; "b"; "a"] /\
  numItems <$> c3 = Some 3.
Proof. vm_compute. done. Qed.

(** ** Adding a handle without payload *)

Lemma SMART_PTR_get_frame w handle :
  refs (SMART_PTR_get w handle).1 = refs w /\
  freed (SMART_PTR_get w handle).1 = freed w /\
  clock (SMART_PTR_get w handle).1 = clock w.
Proof.
  destruct handle as [h|]; [|done]. simpl. unfold Lock, Unlock.
  case_draw; done.
Qed.

Lemma SMART_PTR_get_no_payload w handle :
  no_payload w handle -> (SMART_PTR_get w handle).2 = 0.
Proof.
  destruct handle as [h|]; [|done]. intros (r & Hr & Hd).
  simpl. unfold Lock, Unlock. case_draw; try done.
  all: by rewrite Hr.
Qed.

(** C9: for a cache and an id of at most 300 bytes, adding a handle that
    carries no payload (a [NULL] handle included) reports success and
    hands back the cache as it was; the heap of shared blocks and the
    trace of destructor calls are as before as well. *)
Theorem add_no_payload_is_noop w c id handle expiryTimeSec :
  strlen id <= MRU_CACHE_MAX_ID_LEN ->
  no_payload w handle ->
  exists w',
    MRU_CACHE_add w (Some c) (Some id) handle expiryTimeSec = (0, Some c, w') /\
    refs w' = refs w /\ freed w' = freed w.
Proof.
  intros Hlen Hno. unfold MRU_CACHE_add.
  apply Z.ltb_ge in Hlen. rewrite Hlen.
  unfold SMART_PTR_has_value.
  pose proof (SMART_PTR_get_no_payload w handle Hno) as Hget.
  pose proof (SMART_PTR_get_frame w handle) as (Hr & Hf & _).
  destruct (SMART_PTR_get w handle) as [w1 p]. simpl in *. subst p. simpl.
  exists w1. done.
Qed.

(** A [NULL] handle and the id "a" on an empty cache of capacity 2. *)
Lemma add_no_payload_is_noop_witness :
  let w := mkWorld ∅ ∅ [] 0 [] [] [] in
  let c := mkCache 2 0 [] in
  exists w',
    MRU_CACHE_add w (Some c) (Some "a") None 5 = (0, Some c, w') /\
    refs w' = refs w /\ freed w' = freed w.
Proof.
  intros w c. apply (add_no_payload_is_noop w c "a" None 5).
  - vm_compute. discriminate.
  - exact I.
Defined.

(** ** Expiry and pruning *)

Lemma is_expired_clock w w' e : clock w' = clock w -> is_expired w' e = is_expired w e.
Proof. unfold is_expired, get_time. by intros ->. Qed.

Lemma free_entry_clock w handle : clock (free_entry w handle) = clock w.
Proof. apply SMART_PTR_delete_clock. Qed.

(** The loop of the prune keeps, in their order, the entries that are not
    expired at the time of the call. *)
Lemma prune_loop_filter w0 l : forall w n,
  clock w = clock w0 ->
  (prune_loop w l n).1.2 = List.filter (fun e => negb (is_expired w0 e)) l /\
  clock (prune_loop w l n).1.1 = clock w0.
Proof.
  induction l as [|entry rest IH]; intros w n Hc; simpl; [done|].
  rewrite (is_expired_clock w0 w entry Hc).
  destruct (is_expired w0 entry); simpl.
  - apply IH. by rewrite free_entry_clock.
  - specialize (IH w n Hc).
    destruct (prune_loop w rest n) as [[w' l'] n']. simpl in *.
    destruct IH as [-> ->]. done.
Qed.

(** C10: [MRU_CACHE_prune] succeeds and leaves in the list exactly the
    entries that are not expired, each with its id, handle, creation time
    and expiry as before, in the same relative order: the list after the
    call is the list before it filtered by "not expired". *)
Theorem prune_keeps_unexpired_in_order w c :
  exists w' n',
    MRU_CACHE_prune w (Some c) =
      (0, Some (mkCache (maxItems c) n'
                  (List.filter (fun e => negb (is_expired w e)) (dlist c))), w').
Proof.
  unfold MRU_CACHE_prune.
  pose proof (prune_loop_filter w (dlist c) w (numItems c) eq_refl) as [Hl _].
  destruct (prune_loop w (dlist c) (numItems c)) as [[w' l'] n']. simpl in Hl.
  exists w', n'. by rewrite Hl.
Qed.

(** A world without faults stays so through the fallible calls, which
    then succeed. *)
Lemma draw_true s :
  Forall (eq true) s -> (draw s).1 = true /\ Forall (eq true) (draw s).2.
Proof. destruct 1 as [|b s <- Hs]; done. Qed.

Lemma SMART_PTR_copy_no_faults w h :
  no_faults w ->
  (SMART_PTR_copy w (Some h)).2 = Some h /\ no_faults (SMART_PTR_copy w (Some h)).1.
Proof.
  intros (Ha & Hl & Hu). simpl. unfold malloc, Lock, Unlock.
  destruct (draw_true _ Ha) as [Ea Ha']. destruct (draw (allocs w)) as [ok s].
  simpl in Ea, Ha'. subst ok. simpl.
  destruct (draw_true _ Hl) as [El Hl']. destruct (draw (acquires w)) as [ok s2].
  simpl in El, Hl'. subst ok. simpl.
  destruct (draw (releases w)) as [ok s3] eqn:Eu. simpl.
  pose proof (draw_true _ Hu) as [_ Hu']. rewrite Eu in Hu'. simpl in Hu'.
  split; [by destruct h|]. done.
Qed.

Lemma is_expired_negative w e : expiryInSec e < 0 -> is_expired w e = false.
Proof. intros H. unfold is_expired. apply Z.ltb_lt in H. by rewrite H. Qed.

(** C6: an entry with a negative expiry is never expired, whatever the
    clock says; an entry with expiry [s >= 0] is expired exactly when the
    seconds elapsed since its creation are strictly more than [s]. A plain
    get whose lookup finds an expired entry reports success with no value
    and leaves the cache (order and entries) and the world as they were;
    the get that includes expired entries hands out the result of copying
    the entry's handle, which in a world without faults is a handle on the
    same shared block. *)
Theorem expiry_and_get :
  (forall w e, expiryInSec e < 0 -> is_expired w e = false) /\
  (forall w e, 0 <= expiryInSec e ->
     (is_expired w e = true <->
      expiryInSec e < get_difftime (get_time w) (created e))) /\
  (forall w c id slot i e,
     strlen id <= MRU_CACHE_MAX_ID_LEN ->
     find (Some id) (Some (dlist c)) = (0, Some (i, e)) ->
     is_expired w e = true ->
     MRU_CACHE_get w (Some c) (Some id) (Some slot) = (0, Some c, Some None, w) /\
     (exists c',
        MRU_CACHE_get_include_expired w (Some c) (Some id) (Some slot) =
          (0, Some c', Some (SMART_PTR_copy w (dataHandle e)).2,
           (SMART_PTR_copy w (dataHandle e)).1)) /\
     (no_faults w -> (SMART_PTR_copy w (dataHandle e)).2 = dataHandle e)).
Proof.
  split; [|split].
  - apply is_expired_negative.
  - intros w e H. unfold is_expired. apply Z.ltb_ge in H. rewrite H.
    apply Z.ltb_lt.
  - intros w c id slot i e Hlen Hfind Hexp.
    apply Z.ltb_ge in Hlen.
    unfold MRU_CACHE_get, MRU_CACHE_get_include_expired, get_from_cache.
    rewrite Hlen, Hfind. simpl. rewrite Hexp. simpl.
    split; [done|]. split.
    + destruct (SMART_PTR_copy w (dataHandle e)) as [w1 copy]. by eexists.
    + intros Hnf. destruct (dataHandle e) as [h|]; [|done].
      by apply SMART_PTR_copy_no_faults.
Qed.

(** An entry created at time 0 that lives 10 seconds, looked up at time
    11. *)
Lemma expiry_and_get_witness :
  let w := mkWorld {[1 := mkRef 1 42 7]} {[1]} [] 11 [] [] [] in
  let e := mkEntry "a" (Some (mkPtr 1 1)) 0 10 in
  let c := mkCache 2 1 [e] in
  is_expired w e = true /\
  MRU_CACHE_get w (Some c) (Some "a") (Some None) = (0, Some c, Some None, w) /\
  (SMART_PTR_copy w (dataHandle e)).2 = dataHandle e.
Proof.
  intros w e c.
  assert (Hlen : strlen "a" <= MRU_CACHE_MAX_ID_LEN) by (vm_compute; discriminate).
  assert (Hfind : find (Some "a") (Some (dlist c)) = (0, Some (0%nat, e)))
    by reflexivity.
  assert (Hexp : is_expired w e = true) by reflexivity.
  assert (Hnf : no_faults w) by (repeat split; constructor).
  destruct expiry_and_get as (_ & _ & H).
  destruct (H w c "a" None 0%nat e Hlen Hfind Hexp) as (Hget & _ & Hcopy).
  exact (conj Hexp (conj Hget (Hcopy Hnf))).
Defined.

(** ** Failure of [MRU_CACHE_add] *)

Lemma malloc_frame w :
  refs (malloc w).2 = refs w /\ freed (malloc w).2 = freed w.
Proof. unfold malloc. case_draw; done. Qed.

(** A copy undone by a delete: the block is what it was. *)
Lemma insert_after_incr (m : gmap Z SMART_PTR_REF) a r :
  m !! a = Some r -> in_int (refCount r) ->
  <[a := mkRef (wrap_int (refCount (incr_refCount r) - 1))
               (data (incr_refCount r)) (freeFunc (incr_refCount r))]>
    (alter incr_refCount a m) = m.
Proof.
  intros Hr Hint. cbn [incr_refCount refCount data freeFunc].
  rewrite wrap_int_pred_succ by done.
  apply map_eq. intros i. destruct (decide (a = i)) as [<-|Hne].
  - rewrite lookup_insert_eq, Hr. by destruct r.
  - rewrite lookup_insert_ne by done. by rewrite lookup_alter_ne.
Qed.

(** A failed add leaves the shared blocks and the trace of destructor
    calls alone, when the handle passed in is one of the owners of its
    block. *)
Lemma add_failure_keeps_heap w handle id data expiryTimeSec st handle' w' :
  MRU_CACHE_add w handle id data expiryTimeSec = (st, handle', w') ->
  st <> 0 ->
  (forall h, data = Some h -> ref h <> 0 /\ exists p, live_handle w h p) ->
  refs w' = refs w /\ freed w' = freed w.
Proof.
  unfold MRU_CACHE_add. intros Hadd Hst Hvalid.
  destruct handle as [instance|]; [|by injection Hadd as _ _ <-].
  destruct id as [id_|]; [|by injection Hadd as _ _ <-].
  destruct (MRU_CACHE_MAX_ID_LEN <? strlen id_); [by injection Hadd as _ _ <-|].
  unfold SMART_PTR_has_value in Hadd.
  pose proof (SMART_PTR_get_frame w data) as (Hr1 & Hf1 & _).
  destruct (SMART_PTR_get w data) as [w1 ptr]. cbn [fst snd] in *.
  destruct (negb (negb (ptr =? 0))); [injection Hadd as <- _ _; done|].
  destruct (find (Some id_) (Some (dlist instance))) as [ret entry] eqn:Hfind.
  assert (ret = 0) as ->.
  { unfold find in Hfind. destruct (dlist instance); by injection Hfind as <- _. }
  cbn [Z.eqb negb] in Hadd.
  destruct entry as [[i current]|].
  - pose proof (SMART_PTR_copy_None w1 data) as Hnone.
    destruct (SMART_PTR_copy w1 data) as [w2 [copy|]]; cbn [fst snd] in *.
    + destruct (insert_and_evict _ _ _) in Hadd. injection Hadd as <- _ _. done.
    + injection Hadd as _ _ <-. destruct (Hnone eq_refl). split; congruence.
  - pose proof (malloc_frame w1) as [Hr2 Hf2].
    destruct (malloc w1) as [[] w2]; cbn [fst snd negb] in *;
      [|injection Hadd as _ _ <-; split; congruence].
    pose proof (SMART_PTR_copy_None w2 data) as Hnone.
    destruct (SMART_PTR_copy w2 data) as [w3 [copy|]] eqn:Hcopy; cbn [fst snd] in *.
    + pose proof (malloc_frame w3) as [Hr4 Hf4].
      destruct (malloc w3) as [[] w4]; cbn [fst snd negb] in *.
      * destruct (insert_and_evict _ _ _) in Hadd. injection Hadd as <- _ _. done.
      * apply (f_equal snd) in Hadd. cbn [snd] in Hadd. subst w'.
        apply SMART_PTR_copy_Some in Hcopy as (Hdata & Hr3 & Hf3 & _).
        destruct (Hvalid copy Hdata) as (Hnz & p & r & Hr & _ & Hrc).
        assert (Hint : in_int (refCount r))
          by (unfold in_int, INT_MIN, INT_MAX in *; lia).
        assert (Hr4' : refs w4 !! ref copy = Some (incr_refCount r)).
        { rewrite Hr4, Hr3. apply alter_incr_lookup. congruence. }
        unfold free_entry.
        destruct (SMART_PTR_delete_live w4 copy _ Hnz Hr4') as [Hf5 Hr5].
        { cbn [incr_refCount refCount]. rewrite wrap_int_pred_succ by done. lia. }
        rewrite Hf5, Hr5, Hr4, Hr3. split; [|congruence].
        rewrite insert_after_incr; [congruence| congruence |done].
    + injection Hadd as _ _ <-. unfold free_entry. cbn [SMART_PTR_delete].
      destruct (Hnone eq_refl). split; congruence.
Qed.

(** C5: whenever [MRU_CACHE_add] returns a status other than 0, for any
    arguments and any outcome of the allocations and lock calls, the cache
    behind the handle is the one from before the call: same entries with
    the same ids, handles, creation times and expiries, in the same order,
    and the same counts. When the handle passed in is an owner of its
    block, the shared blocks behind the stored handles (counts and
    payloads) are as before too, and no destructor was called. *)
Theorem add_failure_keeps_cache w handle id data expiryTimeSec st handle' w' :
  MRU_CACHE_add w handle id data expiryTimeSec = (st, handle', w') ->
  st <> 0 ->
  handle' = handle /\
  ((forall h, data = Some h -> ref h <> 0 /\ exists p, live_handle w h p) ->
   refs w' = refs w /\ freed w' = freed w).
Proof.
  intros Hadd Hst. split.
  - unfold MRU_CACHE_add in Hadd. repeat case_match; simplify_eq; done.
  - by apply (add_failure_keeps_heap w handle id data expiryTimeSec st handle' w').
Qed.

(** The allocation of the new entry fails: status [FAILURE], cache as
    before. *)
Lemma add_failure_keeps_cache_witness :
  let w := mkWorld {[1 := mkRef 1 42 7]} {[1]} [] 0 [false] [] [] in
  let c := mkCache 2 0 [] in
  (MRU_CACHE_add w (Some c) (Some "a") (Some (mkPtr 1 1)) 5).1.1 <> 0 /\
  (MRU_CACHE_add w (Some c) (Some "a") (Some (mkPtr 1 1)) 5).1.2 = Some c.
Proof.
  intros w c.
  assert (Hst : (MRU_CACHE_add w (Some c) (Some "a") (Some (mkPtr 1 1)) 5).1.1 <> 0)
    by (vm_compute; discriminate).
  split; [exact Hst|].
  destruct (MRU_CACHE_add w (Some c) (Some "a") (Some (mkPtr 1 1)) 5)
    as [[st handle'] w'] eqn:Hadd.
  exact (proj1 (add_failure_keeps_cache w (Some c) (Some "a") (Some (mkPtr 1 1)) 5
                  st handle' w' Hadd Hst)).
Defined.

(** ** Capacity *)

Lemma delete_last_removelast {A} (l : list A) :
  delete (length l - 1)%nat l = removelast l.
Proof.
  induction l as [|a [|b l] IH]; [done..|].
  change (removelast (a :: b :: l)) with (a :: removelast (b :: l)).
  rewrite <- IH. simpl. by rewrite Nat.sub_0_r.
Qed.

Lemma last_cons_is_Some {A} (a : A) l : exists t, last (a :: l) = Some t.
Proof.
  destruct (last (a :: l)) as [t|] eqn:E; [by exists t|].
  by apply last_None in E.
Qed.

Lemma removelast_app_last {A} (a : A) l t :
  last (a :: l) = Some t -> removelast (a :: l) ++ [t] = a :: l.
Proof.
  intros H. apply last_Some in H as [l' Hl']. rewrite Hl'.
  by rewrite removelast_last.
Qed.

Lemma length_removelast_cons {A} (a : A) l : length (removelast (a :: l)) = length l.
Proof.
  destruct (last_cons_is_Some a l) as [t Ht].
  pose proof (removelast_app_last a l t Ht) as E.
  apply (f_equal length) in E. rewrite length_app in E. cbn [length] in E. lia.
Qed.

(** The end of an add, spelled out: the count and the list after the
    insertion and the eviction, if any. *)
Lemma insert_and_evict_cache w c e :
  let n1 := wrap_int (numItems c + 1) in
  (insert_and_evict w c e).1 =
    if maxItems c <? n1
    then mkCache (maxItems c) (wrap_int (n1 - 1)) (removelast (e :: dlist c))
    else mkCache (maxItems c) n1 (e :: dlist c).
Proof.
  unfold insert_and_evict. cbn [insert_at_start maxItems numItems dlist].
  destruct (maxItems c <? wrap_int (numItems c + 1)); [|done].
  destruct (last_cons_is_Some e (dlist c)) as [t Ht]. rewrite Ht.
  cbn [remove_entry maxItems numItems dlist fst].
  by rewrite delete_last_removelast.
Qed.

Lemma cache_inv_le k c : cache_inv k c -> numItems c <= k.
Proof. by intros (_ & _ & H & _). Qed.

Lemma cache_inv_insert_and_evict k w c e :
  cache_inv k c -> cache_inv k (insert_and_evict w c e).1.
Proof.
  intros (Hk & Hint & Hle & Hlen).
  rewrite insert_and_evict_cache. cbv zeta.
  pose proof (wrap_int_range (numItems c + 1)) as Hr1.
  pose proof (wrap_int_range (wrap_int (numItems c + 1) - 1)) as Hr2.
  destruct (Z_lt_dec k INT_MAX) as [Hsmall|Hbig].
  - specialize (Hlen Hsmall).
    assert (H1 : wrap_int (numItems c + 1) = numItems c + 1).
    { apply wrap_int_id. unfold in_int, INT_MIN, INT_MAX in *. lia. }
    rewrite H1 in *. rewrite Hk.
    destruct (k <? numItems c + 1) eqn:Hcmp.
    + apply Z.ltb_lt in Hcmp.
      replace (numItems c + 1 - 1) with (numItems c) by lia.
      rewrite (wrap_int_id _ Hint).
      repeat split; try done; try apply Hint.
      intros _. cbn [dlist]. by rewrite length_removelast_cons.
    + apply Z.ltb_ge in Hcmp.
      repeat split; try done; try apply Hr1.
      intros _. cbn [dlist numItems length]. lia.
  - destruct (maxItems c <? wrap_int (numItems c + 1));
      (split; [done|]; split; [done|]; split; [|intros; lia]);
      cbn [numItems]; unfold in_int, INT_MIN, INT_MAX in *; lia.
Qed.

(** Taking the first entry out and putting an entry at the front restores
    the count. *)
Lemma remove_then_insert c cur rest i e :
  in_int (numItems c) -> dlist c = cur :: rest ->
  insert_at_start (remove_entry c (Some (0%nat, i))) (Some e) =
    mkCache (maxItems c) (numItems c) (e :: rest).
Proof.
  intros Hint Hl. unfold insert_at_start, remove_entry.
  cbn [maxItems numItems dlist]. rewrite Hl. cbn [delete list_delete].
  by rewrite wrap_int_succ_pred.
Qed.

Lemma cache_inv_move k c cur rest e :
  cache_inv k c -> dlist c = cur :: rest ->
  cache_inv k (mkCache (maxItems c) (numItems c) (e :: rest)).
Proof.
  intros (Hk & Hint & Hle & Hlen) Hl. repeat split; try done; try apply Hint.
  intros Hs. cbn [numItems dlist]. rewrite (Hlen Hs), Hl. done.
Qed.

(** An update: the first entry is taken out, its replacement goes to the
    front, and nothing is evicted. *)
Lemma insert_and_evict_update k w c cur rest i e :
  cache_inv k c -> dlist c = cur :: rest ->
  insert_and_evict w (remove_entry c (Some (0%nat, i))) e =
    (mkCache (maxItems c) (numItems c) (e :: rest), w).
Proof.
  intros Hinv Hl. pose proof Hinv as (Hk & Hint & Hle & _).
  unfold insert_and_evict. rewrite (remove_then_insert c cur rest i e Hint Hl).
  cbn [maxItems numItems]. rewrite Hk.
  by rewrite (proj2 (Z.ltb_ge _ _) Hle).
Qed.

(** The three ways an add can end: the cache is handed back untouched; a
    new entry was inserted; the entry the lookup found was replaced. *)
Lemma add_cases w c id data expiryTimeSec st handle' w' :
  MRU_CACHE_add w (Some c) id data expiryTimeSec = (st, handle', w') ->
  handle' = Some c \/
  (exists e wx,
     find id (Some (dlist c)) = (0, None) /\ st = 0 /\
     handle' = Some (insert_and_evict wx c e).1) \/
  (exists e wx p,
     find id (Some (dlist c)) = (0, Some p) /\ st = 0 /\
     handle' = Some (insert_and_evict wx (remove_entry c (Some p)) e).1).
Proof.
  unfold MRU_CACHE_add. intros Hadd.
  destruct id as [id_|]; [|left; congruence].
  destruct (MRU_CACHE_MAX_ID_LEN <? strlen id_); [left; congruence|].
  destruct (SMART_PTR_has_value w data) as [w1 has].
  destruct has; cbn [negb] in Hadd; [|left; congruence].
  destruct (find (Some id_) (Some (dlist c))) as [ret entry] eqn:Hfind.
  assert (ret = 0) as ->.
  { unfold find in Hfind. destruct (dlist c); by injection Hfind as <- _. }
  cbn [Z.eqb negb] in Hadd.
  destruct entry as [[i current]|].
  - destruct (SMART_PTR_copy w1 data) as [w2 [copy|]]; [|left; congruence].
    match type of Hadd with
    | context [insert_and_evict ?wx ?cx ?ex] =>
        destruct (insert_and_evict wx cx ex) as [instance' w4] eqn:Hie
    end.
    injection Hadd as <- <- <-. right; right.
    apply (f_equal fst) in Hie. cbn [fst] in Hie. rewrite <- Hie.
    eexists _, _, _. split; [done|]. split; reflexivity.
  - destruct (malloc w1) as [[] w2]; cbn [negb] in Hadd; [|left; congruence].
    destruct (SMART_PTR_copy w2 data) as [w3 [copy|]]; [|left; congruence].
    destruct (malloc w3) as [[] w4]; cbn [negb] in Hadd; [|left; congruence].
    match type of Hadd with
    | context [insert_and_evict ?wx ?cx ?ex] =>
        destruct (insert_and_evict wx cx ex) as [instance' w5] eqn:Hie
    end.
    injection Hadd as <- <- <-. right; left.
    apply (f_equal fst) in Hie. cbn [fst] in Hie. rewrite <- Hie.
    eexists _, _. split; [done|]. split; reflexivity.
Qed.

Lemma cache_inv_found k c id st i cur :
  cache_inv k c -> find id (Some (dlist c)) = (st, Some (i, cur)) ->
  i = 0%nat /\ exists rest, dlist c = cur :: rest.
Proof.
  intros _ Hfind. apply find_front_only in Hfind as [-> Hhead].
  split; [done|]. destruct (dlist c) as [|x rest]; [done|].
  injection Hhead as ->. by exists rest.
Qed.

Lemma cache_inv_add k w c id data expiryTimeSec c' :
  cache_inv k c ->
  (MRU_CACHE_add w (Some c) id data expiryTimeSec).1.2 = Some c' ->
  cache_inv k c'.
Proof.
  intros Hinv Hc'.
  destruct (MRU_CACHE_add w (Some c) id data expiryTimeSec) as [[st handle'] w'] eqn:Hadd.
  cbn [fst snd] in Hc'. subst handle'.
  apply add_cases in Hadd as [Heq | [(e & wx & _ & _ & Heq) | (e & wx & [i cur] & Hfind & _ & Heq)]].
  - by injection Heq as <-.
  - injection Heq as ->. by apply cache_inv_insert_and_evict.
  - injection Heq as ->.
    destruct (cache_inv_found k c id 0 i cur Hinv Hfind) as [-> [rest Hl]].
    change (cache_inv k (insert_and_evict wx (remove_entry c (Some (0%nat, cur))) e).1).
    rewrite (insert_and_evict_update k wx c cur rest cur e Hinv Hl).
    by apply (cache_inv_move k c cur rest e).
Qed.

Lemma cache_inv_get k w c includeExpired id data c' :
  cache_inv k c ->
  (get_from_cache w (Some c) includeExpired id data).1.1.2 = Some c' ->
  cache_inv k c'.
Proof.
  intros Hinv. unfold get_from_cache.
  destruct id as [id_|]; [|by intros [= <-]].
  destruct (MRU_CACHE_MAX_ID_LEN <? strlen id_); [by intros [= <-]|].
  destruct data as [slot|]; [|by intros [= <-]].
  destruct (find (Some id_) (Some (dlist c))) as [ret entry] eqn:Hfind.
  destruct (negb (ret =? 0)); [by intros [= <-]|].
  destruct entry as [[i cur]|]; [|by intros [= <-]].
  destruct (negb includeExpired && is_expired w cur); [by intros [= <-]|].
  destruct (SMART_PTR_copy w (dataHandle cur)) as [w1 copy].
  cbn [fst snd]. intros [= <-].
  destruct (cache_inv_found k c _ _ i cur Hinv Hfind) as [-> [rest Hl]].
  pose proof Hinv as (_ & Hint & _).
  change (cache_inv k (insert_at_start (remove_entry c (Some (0%nat, cur))) (Some cur))).
  rewrite (remove_then_insert c cur rest cur cur Hint Hl).
  by apply (cache_inv_move k c cur rest cur).
Qed.

(** The count that comes out of the prune loop. *)
Lemma prune_loop_count l : forall w n,
  in_int n ->
  in_int (prune_loop w l n).2 /\
  (length (prune_loop w l n).1.2 <= length l)%nat /\
  (Z.of_nat (length l) <= n ->
   (prune_loop w l n).2 =
     n - Z.of_nat (length l) + Z.of_nat (length (prune_loop w l n).1.2)).
Proof.
  induction l as [|entry rest IH]; intros w n Hint; cbn [prune_loop].
  - cbn [fst snd length]. split; [done|]. split; [done|]. lia.
  - destruct (is_expired w entry).
    + destruct (IH (free_entry w (dataHandle entry)) (wrap_int (n - 1))
                  (wrap_int_range _)) as (H1 & H2 & H3).
      split; [done|]. split; [cbn [length]; lia|].
      cbn [length]. intros Hn.
      assert (Hw : wrap_int (n - 1) = n - 1).
      { apply wrap_int_id. unfold in_int, INT_MIN, INT_MAX in *. lia. }
      rewrite Hw in *. rewrite H3; lia.
    + destruct (IH w n Hint) as (H1 & H2 & H3).
      destruct (prune_loop w rest n) as [[w' l'] n'].
      cbn [fst snd length] in *. split; [done|]. split; [lia|].
      intros Hn. rewrite H3; lia.
Qed.

Lemma cache_inv_prune k w c c' :
  cache_inv k c -> (MRU_CACHE_prune w (Some c)).1.2 = Some c' -> cache_inv k c'.
Proof.
  intros (Hk & Hint & Hle & Hlen). unfold MRU_CACHE_prune.
  pose proof (prune_loop_count (dlist c) w (numItems c) Hint) as (H1 & H2 & H3).
  destruct (prune_loop w (dlist c) (numItems c)) as [[w' l'] n'].
  cbn [fst snd] in *. intros [= <-].
  unfold cache_inv. cbn [maxItems numItems dlist].
  destruct (Z_lt_dec k INT_MAX) as [Hsmall|Hbig].
  - specialize (Hlen Hsmall).
    assert (Hn : n' = Z.of_nat (length l')) by (rewrite H3; lia).
    split; [done|]. split; [done|]. split; [lia|done].
  - split; [done|]. split; [done|].
    split; [unfold in_int, INT_MAX in *; lia|intros; lia].
Qed.

Lemma cache_inv_new k w w' c :
  MRU_CACHE_new w k = (w', Some c) -> 0 <= k /\ cache_inv k c.
Proof.
  unfold MRU_CACHE_new. destruct (k <? 0) eqn:Hk; [done|]. apply Z.ltb_ge in Hk.
  destruct (malloc w) as [[] w1]; [|done]. intros [= <- <-].
  split; [done|]. repeat split; try done.
Qed.

Lemma cache_inv_clear k w c c' :
  cache_inv k c -> 0 <= k -> (MRU_CACHE_clear w (Some c)).1.2 = Some c' -> cache_inv k c'.
Proof.
  intros (Hk & _) Hk0. unfold MRU_CACHE_clear. cbn [fst snd]. intros [= <-].
  repeat split; try done.
Qed.

Lemma reachable_inv k c : reachable k c -> 0 <= k /\ cache_inv k c.
Proof.
  induction 1 as [w w' c Hnew | w c op Hreach [Hk0 IH]].
  - by apply cache_inv_new in Hnew.
  - split; [done|]. unfold run_op.
    destruct op as [id data e | inc id data | | ].
    + destruct (MRU_CACHE_add w (Some c) id data e).1.2 as [c'|] eqn:E; [|done].
      by apply (cache_inv_add k w c id data e).
    + destruct (get_from_cache w (Some c) inc id data).1.1.2 as [c'|] eqn:E; [|done].
      by apply (cache_inv_get k w c inc id data).
    + destruct (MRU_CACHE_prune w (Some c)).1.2 as [c'|] eqn:E; [|done].
      by apply (cache_inv_prune k w c).
    + destruct (MRU_CACHE_clear w (Some c)).1.2 as [c'|] eqn:E; [|done].
      by apply (cache_inv_clear k w c).
Qed.

(** An add that changes the cache, in full: the entry that goes to the
    front holds the handle passed in and the expiry passed in; its id is
    the id passed in (new entry) or that of the entry found (update). *)
Lemma add_cases_entry w c id data expiryTimeSec st handle' w' :
  MRU_CACHE_add w (Some c) id data expiryTimeSec = (st, handle', w') ->
  handle' = Some c \/
  exists e wx c0,
    handle' = Some (insert_and_evict wx c0 e).1 /\ st = 0 /\
    dataHandle e = data /\ data <> None /\ expiryInSec e = expiryTimeSec /\
    ((exists id_, id = Some id_ /\ strlen id_ <= MRU_CACHE_MAX_ID_LEN /\
                  entry_id e = id_ /\ c0 = c /\
                  find id (Some (dlist c)) = (0, None)) \/
     (exists i cur, find id (Some (dlist c)) = (0, Some (i, cur)) /\
                    entry_id e = entry_id cur /\
                    c0 = remove_entry c (Some (i, cur)))).
Proof.
  unfold MRU_CACHE_add. intros Hadd.
  destruct id as [id_|]; [|left; congruence].
  destruct (MRU_CACHE_MAX_ID_LEN <? strlen id_) eqn:Hlen; [left; congruence|].
  apply Z.ltb_ge in Hlen.
  destruct (SMART_PTR_has_value w data) as [w1 has].
  destruct has; cbn [negb] in Hadd; [|left; congruence].
  destruct (find (Some id_) (Some (dlist c))) as [ret entry] eqn:Hfind.
  assert (ret = 0) as ->.
  { unfold find in Hfind. destruct (dlist c); by injection Hfind as <- _. }
  cbn [Z.eqb negb] in Hadd.
  destruct entry as [[i current]|].
  - destruct (SMART_PTR_copy w1 data) as [w2 [copy|]] eqn:Hcopy; [|left; congruence].
    apply SMART_PTR_copy_Some in Hcopy as (Hdata & _).
    match type of Hadd with
    | context [insert_and_evict ?wx ?cx ?ex] =>
        destruct (insert_and_evict wx cx ex) as [instance' w4] eqn:Hie
    end.
    injection Hadd as <- <- <-. right.
    apply (f_equal fst) in Hie. cbn [fst] in Hie. rewrite <- Hie.
    eexists _, _, _. split; [reflexivity|]. split; [done|].
    cbn [dataHandle expiryInSec entry_id]. split; [done|].
    split; [by rewrite Hdata|]. split; [done|]. right. by exists i, current.
  - destruct (malloc w1) as [[] w2]; cbn [negb] in Hadd; [|left; congruence].
    destruct (SMART_PTR_copy w2 data) as [w3 [copy|]] eqn:Hcopy; [|left; congruence].
    apply SMART_PTR_copy_Some in Hcopy as (Hdata & _).
    destruct (malloc w3) as [[] w4]; cbn [negb] in Hadd; [|left; congruence].
    match type of Hadd with
    | context [insert_and_evict ?wx ?cx ?ex] =>
        destruct (insert_and_evict wx cx ex) as [instance' w5] eqn:Hie
    end.
    injection Hadd as <- <- <-. right.
    apply (f_equal fst) in Hie. cbn [fst] in Hie. rewrite <- Hie.
    eexists _, _, _. split; [reflexivity|]. split; [done|].
    cbn [dataHandle expiryInSec entry_id]. split; [done|].
    split; [by rewrite Hdata|]. split; [done|]. left. by exists id_.
Qed.

(** The list an add leaves behind. Either the cache is handed back as it
    was, or one entry [e], holding the handle and the expiry passed in,
    was put at the front: in front of the whole old list when the lookup
    found nothing, in the place of the first entry [cur] when the lookup
    found it. From the list so made nothing, or its last entry alone, was
    then dropped. *)
Lemma add_evicts_at_most_tail w c id data expiryTimeSec st c' w' :
  MRU_CACHE_add w (Some c) id data expiryTimeSec = (st, Some c', w') ->
  c' = c \/
  exists e,
    dataHandle e = data /\ expiryInSec e = expiryTimeSec /\
    ((find id (Some (dlist c)) = (0, None) /\ id = Some (entry_id e) /\
      (dlist c' = e :: dlist c \/
       exists t, last (e :: dlist c) = Some t /\ dlist c' ++ [t] = e :: dlist c)) \/
     (exists cur rest,
        dlist c = cur :: rest /\
        find id (Some (dlist c)) = (0, Some (0%nat, cur)) /\
        entry_id e = entry_id cur /\
        (dlist c' = e :: rest \/
         exists t, last (e :: rest) = Some t /\ dlist c' ++ [t] = e :: rest))).
Proof.
  intros Hadd.
  apply add_cases_entry in Hadd
    as [Heq | (e & wx & c0 & Heq & _ & Hh & _ & Hexp & Hid)].
  - left. by injection Heq as <-.
  - right. injection Heq as ->. exists e. split; [done|]. split; [done|].
    rewrite insert_and_evict_cache. cbv zeta.
    destruct Hid as [(id_ & -> & _ & <- & -> & Hfind) | (i & cur & Hfind & He & ->)].
    + left. split; [done|]. split; [done|].
      destruct (maxItems c <? wrap_int (numItems c + 1)); [|by left].
      right. destruct (last_cons_is_Some e (dlist c)) as [t Ht].
      exists t. split; [done|]. by apply removelast_app_last.
    + right. pose proof Hfind as Hfront.
      apply find_front_only in Hfront as [-> Hhead].
      destruct (dlist c) as [|x rest] eqn:Hl; [done|]. injection Hhead as ->.
      exists cur, rest. split; [done|]. split; [done|]. split; [done|].
      cbn [remove_entry maxItems numItems dlist]. rewrite Hl.
      cbn [delete list_delete].
      destruct (maxItems c <? _); [|by left].
      right. destruct (last_cons_is_Some e rest) as [t Ht].
      exists t. split; [done|]. by apply removelast_app_last.
Qed.

(** The same for a cache made by [MRU_CACHE_new] with a capacity below
    [INT_MAX]: a new entry pushes out the last entry exactly when the cache
    is full, and an update pushes out nothing. *)
Lemma add_evicts_only_when_full k w c id data expiryTimeSec st c' w' :
  reachable k c -> k < INT_MAX ->
  MRU_CACHE_add w (Some c) id data expiryTimeSec = (st, Some c', w') ->
  c' = c \/
  exists e,
    dataHandle e = data /\ expiryInSec e = expiryTimeSec /\
    ((find id (Some (dlist c)) = (0, None) /\ id = Some (entry_id e) /\
      (numItems c < k -> dlist c' = e :: dlist c) /\
      (numItems c = k ->
       exists t, last (e :: dlist c) = Some t /\ dlist c' ++ [t] = e :: dlist c)) \/
     (exists cur rest,
        dlist c = cur :: rest /\
        find id (Some (dlist c)) = (0, Some (0%nat, cur)) /\
        entry_id e = entry_id cur /\ dlist c' = e :: rest)).
Proof.
  intros Hreach Hk Hadd. apply reachable_inv in Hreach as [Hk0 Hinv].
  apply add_cases_entry in Hadd
    as [Heq | (e & wx & c0 & Heq & _ & Hh & _ & Hexp & Hid)].
  - left. by injection Heq as <-.
  - right. injection Heq as ->. exists e. split; [done|]. split; [done|].
    destruct Hid as [(id_ & -> & _ & <- & -> & Hfind) | (i & cur & Hfind & He & ->)].
    + left. split; [done|]. split; [done|].
      rewrite insert_and_evict_cache. cbv zeta.
      destruct Hinv as (Hmax & Hint & Hle & Hlen). specialize (Hlen Hk).
      assert (H1 : wrap_int (numItems c + 1) = numItems c + 1).
      { apply wrap_int_id. unfold in_int, INT_MIN, INT_MAX in *. lia. }
      rewrite H1, Hmax. split.
      * intros Hlt. by rewrite (proj2 (Z.ltb_ge k (numItems c + 1))) by lia.
      * intros Heq. rewrite (proj2 (Z.ltb_lt k (numItems c + 1))) by lia.
        destruct (last_cons_is_Some e (dlist c)) as [t Ht].
        exists t. split; [done|]. by apply removelast_app_last.
    + right. destruct (cache_inv_found k c id 0 i cur Hinv Hfind) as [-> [rest Hl]].
      exists cur, rest. split; [done|]. split; [done|]. split; [done|].
      by rewrite (insert_and_evict_update k wx c cur rest cur e Hinv Hl).
Qed.

(** C4: [MRU_CACHE_new] returns no cache for a negative capacity. For a
    cache created with capacity [k], whatever calls were made on it since,
    [k] is not negative and the count is at most [k], in particular after
    every add. An add evicts at most one entry, the last of the list: the
    list after an add that changed the cache is the entry added followed
    by the old list (new id) or by the old list without its first entry,
    which the lookup found and the new entry replaces (update), and from
    that list nothing or the last entry alone is dropped; for a capacity
    below [INT_MAX] the last entry is dropped exactly when a new id meets
    a full cache, and an update drops nothing. With capacity 0 the cache
    is empty after every add: the count is 0 and the list has no entry. *)
Theorem capacity_is_respected :
  (forall w k, k < 0 -> (MRU_CACHE_new w k).2 = None) /\
  (forall k c, reachable k c -> 0 <= k /\ maxItems c = k /\ numItems c <= k) /\
  (forall k c w id data expiryTimeSec c',
     reachable k c ->
     (MRU_CACHE_add w (Some c) id data expiryTimeSec).1.2 = Some c' ->
     numItems c' <= k) /\
  (forall w c id data expiryTimeSec st c' w',
     MRU_CACHE_add w (Some c) id data expiryTimeSec = (st, Some c', w') ->
     c' = c \/
     exists e,
       dataHandle e = data /\ expiryInSec e = expiryTimeSec /\
       ((find id (Some (dlist c)) = (0, None) /\ id = Some (entry_id e) /\
         (dlist c' = e :: dlist c \/
          exists t, last (e :: dlist c) = Some t /\ dlist c' ++ [t] = e :: dlist c)) \/
        (exists cur rest,
           dlist c = cur :: rest /\
           find id (Some (dlist c)) = (0, Some (0%nat, cur)) /\
           entry_id e = entry_id cur /\
           (dlist c' = e :: rest \/
            exists t, last (e :: rest) = Some t /\ dlist c' ++ [t] = e :: rest)))) /\
  (forall k w c id data expiryTimeSec st c' w',
     reachable k c -> k < INT_MAX ->
     MRU_CACHE_add w (Some c) id data expiryTimeSec = (st, Some c', w') ->
     c' = c \/
     exists e,
       dataHandle e = data /\ expiryInSec e = expiryTimeSec /\
       ((find id (Some (dlist c)) = (0, None) /\ id = Some (entry_id e) /\
         (numItems c < k -> dlist c' = e :: dlist c) /\
         (numItems c = k ->
          exists t, last (e :: dlist c) = Some t /\ dlist c' ++ [t] = e :: dlist c)) \/
        (exists cur rest,
           dlist c = cur :: rest /\
           find id (Some (dlist c)) = (0, Some (0%nat, cur)) /\
           entry_id e = entry_id cur /\ dlist c' = e :: rest))) /\
  (forall c w id data expiryTimeSec c',
     reachable 0 c ->
     (MRU_CACHE_add w (Some c) id data expiryTimeSec).1.2 = Some c' ->
     numItems c' = 0 /\ dlist c' = []).
Proof.
  split; [|split; [|split; [|split; [|split]]]].
  - intros w k Hk. unfold MRU_CACHE_new. apply Z.ltb_lt in Hk. by rewrite Hk.
  - intros k c Hreach. apply reachable_inv in Hreach as (Hk0 & Hk & _ & Hle & _).
    done.
  - intros k c w id data e c' Hreach Hadd.
    apply reachable_inv in Hreach as [_ Hinv].
    by apply cache_inv_le, (cache_inv_add k w c id data e).
  - apply add_evicts_at_most_tail.
  - apply add_evicts_only_when_full.
  - intros c w id data e c' Hreach Hadd.
    apply reachable_inv in Hreach as [_ Hinv].
    pose proof (cache_inv_add 0 w c id data e c' Hinv Hadd) as (_ & _ & Hle & Hlen).
    specialize (Hlen ltac:(done)).
    assert (Hz : length (dlist c') = 0%nat) by lia.
    split; [lia|]. by apply length_zero_iff_nil.
Qed.

(** A negative capacity; and a cache of capacity 0, to which a value
    with payload is added. *)
Lemma capacity_is_respected_witness :
  let w := mkWorld {[1 := mkRef 1 42 7]} {[1]} [] 0 [] [] [] in
  let c := mkCache 0 0 [] in
  (MRU_CACHE_new w (-1)).2 = None /\
  forall c',
    (MRU_CACHE_add w (Some c) (Some "a") (Some (mkPtr 1 1)) (-1)).1.2 = Some c' ->
    numItems c' = 0 /\ dlist c' = [].
Proof.
  intros w c.
  destruct capacity_is_respected as (Hnew & _ & _ & _ & _ & Hzero).
  split.
  - apply Hnew. lia.
  - intros c'. apply Hzero. apply (reach_new 0 w w c). reflexivity.
Defined.

(** ** A world without faults *)

Lemma malloc_no_faults w :
  no_faults w ->
  (malloc w).1 = true /\ no_faults (malloc w).2 /\
  refs (malloc w).2 = refs w /\ freed (malloc w).2 = freed w /\
  clock (malloc w).2 = clock w.
Proof.
  intros (Ha & Hl & Hu). unfold malloc.
  destruct (draw_true _ Ha) as [E Ha']. destruct (draw (allocs w)) as [ok s].
  simpl in *. done.
Qed.

Lemma Lock_no_faults w l :
  no_faults w ->
  (Lock w l).1 = LOCK_OK /\ no_faults (Lock w l).2 /\
  refs (Lock w l).2 = refs w /\ freed (Lock w l).2 = freed w /\
  clock (Lock w l).2 = clock w.
Proof.
  intros (Ha & Hl & Hu). unfold Lock.
  destruct (draw_true _ Hl) as [E Hl']. destruct (draw (acquires w)) as [ok s].
  simpl in *. subst ok. done.
Qed.

Lemma Unlock_no_faults w l :
  no_faults w ->
  (Unlock w l).1 = LOCK_OK /\ no_faults (Unlock w l).2 /\
  refs (Unlock w l).2 = refs w /\ freed (Unlock w l).2 = freed w /\
  clock (Unlock w l).2 = clock w.
Proof.
  intros (Ha & Hl & Hu). unfold Unlock.
  destruct (draw_true _ Hu) as [E Hu']. destruct (draw (releases w)) as [ok s].
  simpl in *. subst ok. done.
Qed.

(** Reading the payload of a handle whose block is on the heap. *)
Lemma SMART_PTR_get_no_faults w h r :
  no_faults w -> refs w !! ref h = Some r ->
  (SMART_PTR_get w (Some h)).2 = data r /\ no_faults (SMART_PTR_get w (Some h)).1.
Proof.
  intros Hnf Hr. cbn [SMART_PTR_get].
  destruct (Lock_no_faults w (lock h) Hnf) as (E1 & Hnf1 & Hr1 & _).
  destruct (Lock w (lock h)) as [ret w1]. cbn [fst snd] in *. subst ret.
  destruct (Unlock_no_faults w1 (lock h) Hnf1) as (E2 & Hnf2 & _).
  destruct (Unlock w1 (lock h)) as [ret' w2]. cbn [fst snd] in *. subst ret'.
  cbn [fst snd]. by rewrite Hr1, Hr.
Qed.

(** The scripts of a world are only ever consumed, so a delete leaves a
    world without faults so. *)
Lemma SMART_PTR_delete_no_faults w handle :
  no_faults w -> no_faults (SMART_PTR_delete w handle).
Proof.
  intros Hnf. destruct handle as [h|]; [|done]. cbn [SMART_PTR_delete].
  assert (Hnf1 : no_faults (if lock h =? 0 then w else (Lock w (lock h)).2)).
  { destruct (lock h =? 0); [done|]. by apply Lock_no_faults. }
  set (w1 := if lock h =? 0 then w else (Lock w (lock h)).2) in *.
  assert (Hq : forall p : Z * World,
    no_faults p.2 ->
    no_faults (let '(rc, w2) := p in
           if lock h =? 0 then w2
           else if rc =? 0 then Lock_Deinit (Unlock w2 (lock h)).2 (lock h)
                else (Unlock w2 (lock h)).2)).
  { intros [rc w2] Hc. cbn [snd] in Hc.
    destruct (lock h =? 0); [done|].
    destruct (Unlock_no_faults w2 (lock h) Hc) as (_ & Hnf2 & _).
    destruct (rc =? 0); done. }
  apply Hq.
  destruct (ref h =? 0); [done|].
  destruct (refs w1 !! ref h) as [r|]; [|done].
  destruct (wrap_int (refCount r - 1) =? 0); cbn [snd]; [|done].
  unfold free_ref. destruct (ref h =? 0); [done|]. cbn [with_refs refs].
  rewrite lookup_insert_eq. done.
Qed.

(** The heap after a delete, for any handle. *)
Lemma SMART_PTR_delete_refs w handle :
  refs (SMART_PTR_delete w handle) =
    match handle with
    | None => refs w
    | Some h =>
        if ref h =? 0 then refs w
        else
          match refs w !! ref h with
          | None => refs w
          | Some r =>
              if wrap_int (refCount r - 1) =? 0 then delete (ref h) (refs w)
              else <[ref h := mkRef (wrap_int (refCount r - 1)) (data r) (freeFunc r)]> (refs w)
          end
    end.
Proof.
  destruct handle as [h|]; [|done].
  destruct (ref h =? 0) eqn:Hnz.
  - cbn [SMART_PTR_delete]. rewrite Hnz. unfold Lock, Unlock.
    destruct (lock h =? 0); [done|]. case_draw; done.
  - apply Z.eqb_neq in Hnz.
    destruct (refs w !! ref h) as [r|] eqn:Hr.
    + pose proof (SMART_PTR_delete_block w h r Hnz Hr) as H. cbv zeta in H.
      destruct (wrap_int (refCount r - 1) =? 0); apply H.
    + cbn [SMART_PTR_delete]. apply Z.eqb_neq in Hnz. rewrite Hnz.
      unfold Lock, Unlock.
      destruct (lock h =? 0); case_draw; simpl; rewrite ?Hr; case_draw; done.
Qed.

(** A block that at least two handles share outlives the delete of one
    handle, with its payload. *)
Lemma SMART_PTR_delete_keeps_shared w handle a r :
  refs w !! a = Some r -> 2 <= refCount r <= INT_MAX ->
  exists r', refs (SMART_PTR_delete w handle) !! a = Some r' /\
             data r' = data r /\ 1 <= refCount r' <= INT_MAX.
Proof.
  intros Hr Hrc. rewrite SMART_PTR_delete_refs.
  assert (Hself : exists r', refs w !! a = Some r' /\
             data r' = data r /\ 1 <= refCount r' <= INT_MAX).
  { exists r. repeat split; try done; lia. }
  destruct handle as [h|]; [|done].
  destruct (ref h =? 0); [done|].
  destruct (refs w !! ref h) as [r0|] eqn:Hr0; [|done].
  destruct (decide (ref h = a)) as [Ha|Hne].
  - subst a. rewrite Hr in Hr0. injection Hr0 as <-.
    assert (Hw : wrap_int (refCount r - 1) = refCount r - 1).
    { apply wrap_int_id. unfold in_int, INT_MIN, INT_MAX in *. lia. }
    rewrite Hw. destruct (refCount r - 1 =? 0) eqn:Hz; [lia|].
    rewrite lookup_insert_eq. eexists. split; [done|]. cbn. split; [done|lia].
  - destruct (wrap_int (refCount r0 - 1) =? 0).
    + by rewrite lookup_delete_ne.
    + by rewrite lookup_insert_ne.
Qed.

(** ** Add followed by get *)

Lemma strncmp_refl s : forall n, strncmp s s n = 0.
Proof.
  induction s as [|a s IH]; intros [|n]; cbn [strncmp]; try done.
  by rewrite Ascii.eqb_refl.
Qed.

Lemma find_Some_find_spec id l q :
  find (Some id) (Some l) = (0, Some q) -> find_spec id l = Some q.
Proof.
  unfold find, find_spec. destruct l as [|current rest]; [done|].
  cbn [find_spec_from]. destruct (_ =? 0); [|done]. by intros [= <-].
Qed.

Lemma find_Some_strncmp id l i e :
  find (Some id) (Some l) = (0, Some (i, e)) ->
  strncmp id (entry_id e) (Z.to_nat MRU_CACHE_MAX_ID_LEN) = 0.
Proof.
  unfold find. destruct l as [|current rest]; [done|].
  destruct (_ =? 0) eqn:E; [|done]. intros [= _ <-]. by apply Z.eqb_eq.
Qed.

Lemma find_front_match id e rest :
  strncmp id (entry_id e) (Z.to_nat MRU_CACHE_MAX_ID_LEN) = 0 ->
  find (Some id) (Some (e :: rest)) = (0, Some (0%nat, e)).
Proof. intros H. unfold find. by rewrite H. Qed.

Lemma SMART_PTR_has_value_no_faults w h p :
  no_faults w -> live_handle w h p -> p <> 0 ->
  (SMART_PTR_has_value w (Some h)).2 = true /\
  no_faults (SMART_PTR_has_value w (Some h)).1 /\
  refs (SMART_PTR_has_value w (Some h)).1 = refs w.
Proof.
  intros Hnf (r & Hr & Hp & _) Hnz. unfold SMART_PTR_has_value.
  destruct (SMART_PTR_get_no_faults w h r Hnf Hr) as [Hget Hnf1].
  pose proof (SMART_PTR_get_frame w (Some h)) as (Hrefs & _).
  destruct (SMART_PTR_get w (Some h)) as [w1 ptr]. cbn [fst snd] in *.
  subst ptr. rewrite Hp. apply Z.eqb_neq in Hnz. by rewrite Hnz.
Qed.

Lemma SMART_PTR_copy_live w h p :
  no_faults w -> live_handle w h p ->
  exists w' r',
    SMART_PTR_copy w (Some h) = (w', Some h) /\ no_faults w' /\
    clock w' = clock w /\
    refs w' !! ref h = Some r' /\ data r' = p /\ 2 <= refCount r' <= INT_MAX.
Proof.
  intros Hnf (r & Hr & Hp & Hrc).
  destruct (SMART_PTR_copy_no_faults w h Hnf) as [Hc Hnf'].
  destruct (SMART_PTR_copy w (Some h)) as [w' copy] eqn:E. cbn [fst snd] in *.
  subst copy. apply SMART_PTR_copy_Some in E as (_ & Hrefs & _ & Hclock).
  assert (Hw : wrap_int (refCount r + 1) = refCount r + 1).
  { apply wrap_int_id. unfold in_int, INT_MIN, INT_MAX in *. lia. }
  exists w', (incr_refCount r).
  split; [done|]. split; [done|]. split; [done|].
  split; [rewrite Hrefs; by apply alter_incr_lookup|].
  split; [done|]. cbn. rewrite Hw. unfold INT_MAX in *. lia.
Qed.

(** The world after the end of an add: as before, or one handle, that of
    the evicted entry, was released. *)
Lemma insert_and_evict_world w c e :
  (insert_and_evict w c e).2 = w \/
  exists t, (insert_and_evict w c e).2 = SMART_PTR_delete w (dataHandle t).
Proof.
  unfold insert_and_evict. destruct (_ <? _); [|by left].
  destruct (last _) as [t|]; [|by left]. right. by exists t.
Qed.

(** In a cache with room for at least one entry the entry just inserted
    is not the one evicted. *)
Lemma insert_and_evict_front k w c e :
  cache_inv k c -> 1 <= k <= INT_MAX ->
  exists n' rest,
    (insert_and_evict w c e).1 = mkCache k n' (e :: rest) /\
    (numItems c < k -> n' = numItems c + 1) /\
    (numItems c = k -> k < INT_MAX -> n' = numItems c).
Proof.
  intros (Hk & Hint & Hle & Hlen) Hk1.
  rewrite insert_and_evict_cache. cbv zeta. rewrite Hk.
  pose proof (wrap_int_range (numItems c + 1)) as Hr1.
  destruct (k <? wrap_int (numItems c + 1)) eqn:Hcmp.
  - apply Z.ltb_lt in Hcmp.
    assert (Hsmall : k < INT_MAX) by (unfold in_int in Hr1; lia).
    specialize (Hlen Hsmall).
    assert (H1 : wrap_int (numItems c + 1) = numItems c + 1).
    { apply wrap_int_id. unfold in_int, INT_MIN, INT_MAX in *. lia. }
    rewrite H1 in *.
    destruct (dlist c) as [|x l] eqn:Hl; [cbn [length] in Hlen; lia|].
    exists (wrap_int (numItems c + 1 - 1)), (removelast (x :: l)).
    split; [done|]. split; [lia|]. intros _ _.
    replace (numItems c + 1 - 1) with (numItems c) by lia.
    by apply wrap_int_id.
  - apply Z.ltb_ge in Hcmp.
    exists (wrap_int (numItems c + 1)), (dlist c). split; [done|].
    split.
    + intros Hlt. apply wrap_int_id. unfold in_int, INT_MIN, INT_MAX in *. lia.
    + intros Heq Hsmall.
      assert (H1 : wrap_int (numItems c + 1) = numItems c + 1).
      { apply wrap_int_id. unfold in_int, INT_MIN, INT_MAX in *. lia. }
      rewrite H1 in Hcmp. lia.
Qed.

Lemma find_spec_None_find id l :
  find_spec id l = None -> find (Some id) (Some l) = (0, None).
Proof.
  unfold find, find_spec. destruct l as [|current rest]; [done|].
  cbn [find_spec_from]. by destruct (_ =? 0).
Qed.

(** An add of a handle with payload, in a world without faults, to a
    well-formed cache with room for at least one entry: it succeeds and
    the entry that holds the handle is the first of the list. *)
Lemma add_with_payload k w c id h p expiryTimeSec :
  cache_inv k c -> 1 <= k <= INT_MAX ->
  strlen id <= MRU_CACHE_MAX_ID_LEN ->
  no_faults w -> live_handle w h p -> p <> 0 ->
  exists n1 e rest w1,
    MRU_CACHE_add w (Some c) (Some id) (Some h) expiryTimeSec =
      (0, Some (mkCache k n1 (e :: rest)), w1) /\
    strncmp id (entry_id e) (Z.to_nat MRU_CACHE_MAX_ID_LEN) = 0 /\
    dataHandle e = Some h /\ expiryInSec e = expiryTimeSec /\
    no_faults w1 /\ (exists r1, refs w1 !! ref h = Some r1 /\ data r1 = p) /\
    (find (Some id) (Some (dlist c)) = (0, None) ->
     numItems c < k -> n1 = numItems c + 1) /\
    (find (Some id) (Some (dlist c)) = (0, None) ->
     numItems c = k -> k < INT_MAX -> n1 = numItems c) /\
    (forall q, find (Some id) (Some (dlist c)) = (0, Some q) -> n1 = numItems c).
Proof.
  intros Hinv Hk Hlen Hnf Hlive Hp.
  unfold MRU_CACHE_add. apply Z.ltb_ge in Hlen. rewrite Hlen.
  destruct (SMART_PTR_has_value_no_faults w h p Hnf Hlive Hp) as (Hhas & Hnf1 & Hrefs1).
  destruct (SMART_PTR_has_value w (Some h)) as [w1 has]. cbn [fst snd] in *.
  subst has. cbn [negb].
  assert (Hlive1 : live_handle w1 h p) by (unfold live_handle; by rewrite Hrefs1).
  destruct (find (Some id) (Some (dlist c))) as [ret entry] eqn:Hfind.
  assert (ret = 0) as ->.
  { unfold find in Hfind. destruct (dlist c); by injection Hfind as <- _. }
  cbn [Z.eqb negb].
  destruct entry as [[i cur]|].
  - destruct (SMART_PTR_copy_live w1 h p Hnf1 Hlive1)
      as (w2 & r2 & Hcopy & Hnf2 & _ & Hr2 & Hd2 & Hrc2).
    rewrite Hcopy.
    destruct (cache_inv_found k c _ _ i cur Hinv Hfind) as [-> [rest Hl]].
    set (w3 := match dataHandle cur with
               | Some _ => SMART_PTR_delete w2 (dataHandle cur)
               | None => w2
               end).
    assert (Hw3 : no_faults w3 /\ exists r3, refs w3 !! ref h = Some r3 /\ data r3 = p).
    { unfold w3. destruct (dataHandle cur) as [old|].
      - split; [by apply SMART_PTR_delete_no_faults|].
        destruct (SMART_PTR_delete_keeps_shared w2 (Some old) _ _ Hr2 Hrc2)
          as (r3 & Hr3 & Hd3 & _).
        exists r3. split; [done|congruence].
      - split; [done|]. by exists r2. }
    destruct Hw3 as [Hnf3 Hb3].
    rewrite (insert_and_evict_update k w3 c cur rest cur _ Hinv Hl).
    pose proof Hinv as (Hmax & _).
    eexists _, _, _, _. split; [rewrite Hmax; reflexivity|].
    cbn [entry_id dataHandle expiryInSec].
    split; [by apply (find_Some_strncmp id (dlist c) 0%nat cur)|].
    repeat split; try done; apply Hnf3.
  - destruct (malloc_no_faults w1 Hnf1) as (Hok & Hnf2 & Hrefs2 & _).
    destruct (malloc w1) as [ok w2]. cbn [fst snd] in *. subst ok. cbn [negb].
    assert (Hlive2 : live_handle w2 h p) by (unfold live_handle; by rewrite Hrefs2).
    destruct (SMART_PTR_copy_live w2 h p Hnf2 Hlive2)
      as (w3 & r3 & Hcopy & Hnf3 & _ & Hr3 & Hd3 & Hrc3).
    rewrite Hcopy.
    destruct (malloc_no_faults w3 Hnf3) as (Hok & Hnf4 & Hrefs4 & _).
    destruct (malloc w3) as [ok w4]. cbn [fst snd] in *. subst ok. cbn [negb].
    rewrite <- Hrefs4 in Hr3.
    set (e := mkEntry id (Some h) (get_time w2) expiryTimeSec).
    destruct (insert_and_evict_front k w4 c e Hinv Hk) as (n' & rest & Hc' & Hsz1 & Hsz2).
    pose proof (insert_and_evict_world w4 c e) as Hw5.
    destruct (insert_and_evict w4 c e) as [c' w5]. cbn [fst snd] in *. subst c'.
    exists n', e, rest, w5. split; [done|].
    split; [apply strncmp_refl|].
    split; [done|]. split; [done|].
    assert (Hw5' : no_faults w5 /\ exists r1, refs w5 !! ref h = Some r1 /\ data r1 = p).
    { destruct Hw5 as [->|[t ->]].
      - split; [done|]. by exists r3.
      - split; [by apply SMART_PTR_delete_no_faults|].
        destruct (SMART_PTR_delete_keeps_shared w4 (dataHandle t) _ _ Hr3 Hrc3)
          as (r5 & Hr5 & Hd5 & _).
        exists r5. split; [done|congruence]. }
    destruct Hw5' as [Hnf5 Hb5].
    repeat split; try done; apply Hnf5.
Qed.

(** A get right after: the first entry matches, never expires, and its
    handle is copied out; the copy gives access to the payload. *)
Lemma get_front_entry w k n e rest id h r slot :
  strlen id <= MRU_CACHE_MAX_ID_LEN ->
  strncmp id (entry_id e) (Z.to_nat MRU_CACHE_MAX_ID_LEN) = 0 ->
  dataHandle e = Some h -> expiryInSec e < 0 ->
  no_faults w -> refs w !! ref h = Some r ->
  exists c2 w2,
    MRU_CACHE_get w (Some (mkCache k n (e :: rest))) (Some id) (Some slot) =
      (0, Some c2, Some (Some h), w2) /\
    (SMART_PTR_get w2 (Some h)).2 = data r.
Proof.
  intros Hlen Hcmp Hh Hexp Hnf Hr.
  unfold MRU_CACHE_get, get_from_cache. apply Z.ltb_ge in Hlen. rewrite Hlen.
  cbn [dlist]. rewrite (find_front_match id e rest Hcmp). cbn [Z.eqb negb].
  rewrite (is_expired_negative w e Hexp).
  cbn [negb andb]. rewrite Hh.
  assert (Hlive : exists w2 r2, SMART_PTR_copy w (Some h) = (w2, Some h) /\
            no_faults w2 /\ refs w2 !! ref h = Some r2 /\ data r2 = data r).
  { destruct (SMART_PTR_copy_no_faults w h Hnf) as [Hc Hnf'].
    destruct (SMART_PTR_copy w (Some h)) as [w' copy] eqn:E. cbn [fst snd] in *.
    subst copy. apply SMART_PTR_copy_Some in E as (_ & Hrefs & _).
    exists w', (incr_refCount r). split; [done|]. split; [done|].
    split; [|done]. rewrite Hrefs. by apply alter_incr_lookup. }
  destruct Hlive as (w2 & r2 & Hcopy & Hnf2 & Hr2 & Hd2).
  rewrite Hcopy. eexists _, w2. split; [reflexivity|].
  destruct (SMART_PTR_get_no_faults w2 h r2 Hnf2 Hr2) as [Hget _]. congruence.
Qed.

(** C7, as the code has it: take a cache created with a capacity [k] of at
    least 1 (and below [INT_MAX]), an id of at most 300 bytes, a handle
    [h] whose payload [p] is not [NULL], and a world in which no
    allocation and no lock call fails. Then [add(id, h, -1)] succeeds and
    the [get(id)] that follows at once succeeds with a handle whose
    payload is [p]. The size after the add is the size before plus 1 when
    no entry had the id and the cache was below its capacity; it is the
    size before when no entry had the id and the cache was full (the last
    entry is evicted), and when the lookup found the id (update). *)
Theorem add_then_get_round_trip k c w id h p slot :
  reachable k c -> 1 <= k < INT_MAX ->
  strlen id <= MRU_CACHE_MAX_ID_LEN ->
  no_faults w -> live_handle w h p -> p <> 0 ->
  (SMART_PTR_get w (Some h)).2 = p /\
  exists c1 w1,
    MRU_CACHE_add w (Some c) (Some id) (Some h) (-1) = (0, Some c1, w1) /\
    (exists c2 w2,
       MRU_CACHE_get w1 (Some c1) (Some id) (Some slot) =
         (0, Some c2, Some (Some h), w2) /\
       (SMART_PTR_get w2 (Some h)).2 = p) /\
    (find_spec id (dlist c) = None -> numItems c < k ->
     MRU_CACHE_size (Some c1) (Some 0) = (0, Some (numItems c + 1))) /\
    (find_spec id (dlist c) = None -> numItems c = k ->
     MRU_CACHE_size (Some c1) (Some 0) = (0, Some (numItems c))) /\
    (forall q, find (Some id) (Some (dlist c)) = (0, Some q) ->
     MRU_CACHE_size (Some c1) (Some 0) = (0, Some (numItems c))).
Proof.
  intros Hreach Hk Hlen Hnf Hlive Hp.
  apply reachable_inv in Hreach as [_ Hinv].
  split.
  { destruct Hlive as (r & Hr & Hd & _).
    destruct (SMART_PTR_get_no_faults w h r Hnf Hr) as [Hget _]. congruence. }
  destruct (add_with_payload k w c id h p (-1) Hinv ltac:(lia) Hlen Hnf Hlive Hp)
    as (n1 & e & rest & w1 & Hadd & Hcmp & Hh & Hexp & Hnf1 & (r1 & Hr1 & Hd1)
        & Hnew & Hfull & Hupd).
  exists (mkCache k n1 (e :: rest)), w1. split; [done|]. split.
  - destruct (get_front_entry w1 k n1 e rest id h r1 slot Hlen Hcmp Hh
                ltac:(lia) Hnf1 Hr1) as (c2 & w2 & Hget & Hpay).
    exists c2, w2. split; [done|congruence].
  - cbn [MRU_CACHE_size numItems]. repeat split.
    + intros Hnone Hlt. by rewrite (Hnew (find_spec_None_find _ _ Hnone) Hlt).
    + intros Hnone Heq.
      by rewrite (Hfull (find_spec_None_find _ _ Hnone) Heq ltac:(lia)).
    + intros q Hq. by rewrite (Hupd q Hq).
Qed.

(** A fresh cache of capacity 2 and a handle on the payload 42. *)
Lemma add_then_get_round_trip_witness :
  let w := mkWorld {[1 := mkRef 1 42 7]} {[1]} [] 0 [] [] [] in
  let h := mkPtr 1 1 in
  let c := mkCache 2 0 [] in
  exists c1 w1,
    MRU_CACHE_add w (Some c) (Some "a") (Some h) (-1) = (0, Some c1, w1) /\
    exists c2 w2,
      MRU_CACHE_get w1 (Some c1) (Some "a") (Some None) =
        (0, Some c2, Some (Some h), w2) /\
      (SMART_PTR_get w2 (Some h)).2 = 42.
Proof.
  intros w h c.
  assert (Hreach : reachable 2 c) by (apply (reach_new 2 w w c); reflexivity).
  assert (Hk : 1 <= 2 < INT_MAX) by (unfold INT_MAX; lia).
  assert (Hlen : strlen "a" <= MRU_CACHE_MAX_ID_LEN) by (vm_compute; discriminate).
  assert (Hnf : no_faults w) by (repeat split; constructor).
  assert (Hlive : live_handle w h 42).
  { exists (mkRef 1 42 7). split; [reflexivity|]. split; [reflexivity|].
    unfold INT_MAX. cbn. lia. }
  destruct (add_then_get_round_trip 2 c w "a" h 42 None Hreach Hk Hlen Hnf Hlive
              ltac:(discriminate)) as (_ & c1 & w1 & Hadd & Hget & _).
  exists c1, w1. split; [exact Hadd|exact Hget].
Defined.

(** C7, as stated, fails on a cache of capacity 0: the add of a handle
    with payload 42 under a new id succeeds, the get that follows returns
    no handle, and the size is 0 before and after the add. *)
Lemma add_then_get_capacity_zero :
  let w := mkWorld {[1 := mkRef 1 42 7]} {[1]} [] 0 [] [] [] in
  let v := Some (mkPtr 1 1) in
  let c := mkCache 0 0 [] in
  let '(st, c1, w1) := MRU_CACHE_add w (Some c) (Some "a") v (-1) in
  let '(st', _, slot, _) := MRU_CACHE_get w1 c1 (Some "a") (Some None) in
  (SMART_PTR_get w v).2 = 42 /\ (MRU_CACHE_new w 0).2 = Some c /\
  st = 0 /\ st' = 0 /\ slot = Some None /\
  MRU_CACHE_size (Some c) (Some 0) = (0, Some 0) /\
  (fun c1 => MRU_CACHE_size (Some c1) (Some 0)) <$> c1 = Some (0, Some 0).
Proof. vm_compute. done. Qed.

(** * Further properties of the smart pointers *)

Lemma fresh_lock_nonzero (X : gset Z) : fresh ({[0]} ∪ X) <> 0 /\ fresh ({[0]} ∪ X) ∉ X.
Proof.
  pose proof (is_fresh ({[0]} ∪ X)) as H. split.
  - intros E. apply H. rewrite E. set_solver.
  - intros E. apply H. set_solver.
Qed.

Lemma add_remove_fresh (X : gset Z) l : l ∉ X -> ({[l]} ∪ X) ∖ {[l]} = X.
Proof.
  intros Hl. apply set_eq. intros x.
  rewrite elem_of_difference, elem_of_union, !elem_of_singleton. split.
  - by intros [[->|Hx] Hne].
  - intros Hx. split; [by right|]. by intros ->.
Qed.

(** A failed [SMART_PTR_create] leaves nothing behind: no block, no
    destructor call, and no lock (the lock made before the block could
    not be allocated is deinitialised again). *)
Theorem create_failure_leaves_nothing w p d w' :
  SMART_PTR_create w p d = (w', None) ->
  refs w' = refs w /\ freed w' = freed w /\ locks w' = locks w.
Proof.
  unfold SMART_PTR_create.
  destruct (d =? 0); [by intros [= <-]|].
  unfold malloc at 1. destruct (draw (allocs w)) as [[] s1]; cbn [negb];
    [|by intros [= <-]].
  unfold Lock_Init, malloc. cbn [allocs with_allocs].
  destruct (draw s1) as [[] s2].
  - destruct (fresh_lock_nonzero (locks w)) as [Hnz Hfresh].
    cbn [locks with_allocs with_locks].
    set (l := fresh ({[0]} ∪ locks w)) in *.
    apply Z.eqb_neq in Hnz. rewrite Hnz. cbn [allocs with_locks with_allocs].
    destruct (draw s2) as [[] s3]; cbn [negb]; [done|].
    intros [= <-]. cbn [SMART_PTR_delete lock ref Z.eqb]. rewrite Hnz.
    unfold Lock, Unlock, Lock_Deinit.
    case_draw; cbn; repeat split; try done; by apply add_remove_fresh.
  - cbn [Z.eqb]. by intros [= <-].
Qed.

(** The second allocation of a create fails. *)
Lemma create_failure_leaves_nothing_witness :
  let w := mkWorld ∅ ∅ [] 0 [true; true; false] [] [] in
  (SMART_PTR_create w 42 7).2 = None /\
  locks (SMART_PTR_create w 42 7).1 = locks w.
Proof.
  intros w.
  assert (H : (SMART_PTR_create w 42 7).2 = None) by reflexivity.
  split; [exact H|].
  destruct (SMART_PTR_create w 42 7) as [w' o] eqn:E. cbn [fst snd] in *. subst o.
  exact (proj2 (proj2 (create_failure_leaves_nothing w 42 7 w' E))).
Defined.

(** A handle that [SMART_PTR_create] returns has a lock and a block of its
    own, both new and not [NULL]; every block that was on the heap is
    untouched, and the payload can be read back through the handle. *)
Theorem create_gives_fresh_owner w p d w1 h :
  SMART_PTR_create w p d = (w1, Some h) ->
  lock h <> 0 /\ (lock h ∉ locks w) /\ (lock h ∈ locks w1) /\
  ref h <> 0 /\ refs w !! ref h = None /\
  (forall a, a <> ref h -> refs w1 !! a = refs w !! a) /\
  (no_faults w1 -> (SMART_PTR_get w1 (Some h)).2 = p).
Proof.
  intros Hcreate.
  destruct (SMART_PTR_create_Some w p d w1 h Hcreate) as (_ & Hnz & Hnew & Hrefs & _).
  assert (Hlock : lock h <> 0 /\ (lock h ∉ locks w) /\ (lock h ∈ locks w1)).
  { revert Hcreate. unfold SMART_PTR_create.
    destruct (d =? 0); [done|].
    unfold malloc at 1. destruct (draw (allocs w)) as [[] s1]; cbn [negb]; [|done].
    unfold Lock_Init, malloc. cbn [allocs with_allocs].
    destruct (draw s1) as [[] s2]; [|done].
    destruct (fresh_lock_nonzero (locks w)) as [Hl Hfresh].
    cbn [locks with_allocs with_locks].
    set (l := fresh ({[0]} ∪ locks w)) in *.
    pose proof Hl as Hl'. apply Z.eqb_neq in Hl'. rewrite Hl'.
    cbn [allocs with_locks with_allocs].
    destruct (draw s2) as [[] s3]; cbn [negb]; [|done].
    intros [= <- <-]. cbn [lock locks with_refs with_allocs with_locks].
    split; [done|]. split; [done|].
    apply elem_of_union. left. by apply elem_of_singleton. }
  destruct Hlock as (Hl1 & Hl2 & Hl3).
  repeat split; try done.
  - intros a Ha. rewrite Hrefs. by rewrite lookup_insert_ne.
  - intros Hnf.
    assert (Hr : refs w1 !! ref h = Some (mkRef 1 p d)).
    { rewrite Hrefs. apply lookup_insert_eq. }
    by destruct (SMART_PTR_get_no_faults w1 h _ Hnf Hr) as [-> _].
Qed.

Lemma create_gives_fresh_owner_witness :
  let w := mkWorld {[1 := mkRef 3 5 9]} {[1]} [] 0 [] [] [] in
  exists w1 h,
    SMART_PTR_create w 42 7 = (w1, Some h) /\
    refs w1 !! 1 = refs w !! 1 /\ (SMART_PTR_get w1 (Some h)).2 = 42.
Proof.
  intros w.
  destruct (SMART_PTR_create w 42 7) as [w1 [h|]] eqn:E;
    [|vm_compute in E; discriminate].
  exists w1, h. split; [reflexivity|].
  destruct (create_gives_fresh_owner w 42 7 w1 h E)
    as (_ & _ & _ & _ & Hnew & Hframe & Hget).
  split.
  - apply Hframe. intros Ha. rewrite <- Ha in Hnew. vm_compute in Hnew. discriminate.
  - apply Hget. vm_compute in E. injection E as <- _. repeat split; constructor.
Defined.

(** The handle of [SMART_PTR_new] wraps no payload: [SMART_PTR_has_value]
    says so whatever the lock calls return, and adding the handle to a
    cache is accepted and ignored. *)
Theorem new_handle_is_empty w w1 h :
  SMART_PTR_new w = (w1, Some h) ->
  (SMART_PTR_has_value w1 (Some h)).2 = false /\
  forall c id expiryTimeSec,
    strlen id <= MRU_CACHE_MAX_ID_LEN ->
    (MRU_CACHE_add w1 (Some c) (Some id) (Some h) expiryTimeSec).1 = (0, Some c).
Proof.
  unfold SMART_PTR_new. intros Hcreate.
  destruct (SMART_PTR_create_Some w 0 libc_free w1 h Hcreate) as (_ & _ & _ & Hrefs & _).
  assert (Hno : no_payload w1 (Some h)).
  { exists (mkRef 1 0 libc_free). split; [|done]. rewrite Hrefs. apply lookup_insert_eq. }
  pose proof (SMART_PTR_get_no_payload w1 (Some h) Hno) as Hget.
  split.
  - unfold SMART_PTR_has_value. destruct (SMART_PTR_get w1 (Some h)) as [w2 ptr].
    cbn [snd] in *. by subst ptr.
  - intros c id e Hlen. unfold MRU_CACHE_add. apply Z.ltb_ge in Hlen. rewrite Hlen.
    unfold SMART_PTR_has_value. destruct (SMART_PTR_get w1 (Some h)) as [w2 ptr].
    cbn [snd] in *. by subst ptr.
Qed.

Lemma new_handle_is_empty_witness :
  let w := mkWorld ∅ ∅ [] 0 [] [] [] in
  exists w1 h,
    SMART_PTR_new w = (w1, Some h) /\
    (SMART_PTR_has_value w1 (Some h)).2 = false.
Proof.
  intros w.
  destruct (SMART_PTR_new w) as [w1 [h|]] eqn:E; [|vm_compute in E; discriminate].
  exists w1, h. split; [reflexivity|].
  exact (proj1 (new_handle_is_empty w w1 h E)).
Defined.

(** When the lock of a handle cannot be acquired, or cannot be released,
    [SMART_PTR_get] answers [NULL] whatever the payload is. [MRU_CACHE_add]
    takes such a handle for an empty one: it reports success and stores
    nothing. *)
Theorem lock_failure_hides_payload w h :
  head (acquires w) = Some false \/ head (releases w) = Some false ->
  (SMART_PTR_get w (Some h)).2 = 0 /\
  forall c id expiryTimeSec,
    strlen id <= MRU_CACHE_MAX_ID_LEN ->
    (MRU_CACHE_add w (Some c) (Some id) (Some h) expiryTimeSec).1 = (0, Some c).
Proof.
  intros Hfail.
  assert (Hget : (SMART_PTR_get w (Some h)).2 = 0).
  { cbn [SMART_PTR_get]. unfold Lock.
    destruct (acquires w) as [|[] sa] eqn:Ea; cbn; try done.
    all: destruct Hfail as [Hf|Hf]; [done|].
    all: unfold Unlock; cbn; destruct (releases w) as [|[] sr]; cbn in *; done. }
  split; [done|].
  intros c id e Hlen. unfold MRU_CACHE_add. apply Z.ltb_ge in Hlen. rewrite Hlen.
  unfold SMART_PTR_has_value. destruct (SMART_PTR_get w (Some h)) as [w2 ptr].
  cbn [snd] in *. by subst ptr.
Qed.

(** A handle on the payload 42, behind a lock that refuses. *)
Lemma lock_failure_hides_payload_witness :
  let w := mkWorld {[1 := mkRef 1 42 7]} {[1]} [] 0 [] [false] [] in
  let c := mkCache 2 0 [] in
  (SMART_PTR_get w (Some (mkPtr 1 1))).2 = 0 /\
  (MRU_CACHE_add w (Some c) (Some "a") (Some (mkPtr 1 1)) (-1)).1 = (0, Some c).
Proof.
  intros w c.
  destruct (lock_failure_hides_payload w (mkPtr 1 1)) as [Hget Hadd].
  - left. reflexivity.
  - split; [exact Hget|]. apply Hadd. vm_compute. discriminate.
Defined.

(** The live locks after a delete of a handle whose block is on the heap:
    the lock goes with the last owner, and only then. *)
Lemma SMART_PTR_delete_locks w h r :
  ref h <> 0 -> lock h <> 0 -> refs w !! ref h = Some r ->
  locks (SMART_PTR_delete w (Some h)) =
    if wrap_int (refCount r - 1) =? 0 then locks w ∖ {[lock h]} else locks w.
Proof.
  intros Hnz Hl Hr. cbn [SMART_PTR_delete].
  apply Z.eqb_neq in Hnz. apply Z.eqb_neq in Hl. rewrite Hnz, Hl.
  unfold Lock. destruct (draw (acquires w)) as [ok sa]. cbn [snd refs with_acquires].
  rewrite Hr. unfold free_ref, Unlock, Lock_Deinit. rewrite Hnz.
  destruct (wrap_int (refCount r - 1) =? 0) eqn:Hrc.
  - cbn [refs with_refs]. rewrite lookup_insert_eq. cbn. rewrite Hrc.
    by destruct (draw (releases w)).
  - cbn. rewrite Hrc. by destruct (draw (releases w)).
Qed.

(** A copy followed by the delete of the copy puts the heap back: the
    count is what it was, no destructor ran, and the lock is still live. *)
Theorem copy_then_delete_restores w h r w1 c :
  ref h <> 0 -> lock h <> 0 ->
  refs w !! ref h = Some r -> 1 <= refCount r < INT_MAX ->
  SMART_PTR_copy w (Some h) = (w1, Some c) ->
  refs (SMART_PTR_delete w1 (Some c)) = refs w /\
  freed (SMART_PTR_delete w1 (Some c)) = freed w /\
  locks (SMART_PTR_delete w1 (Some c)) = locks w.
Proof.
  intros Hnz Hl Hr Hrc Hcopy.
  assert (Hlocks : locks w1 = locks w).
  { revert Hcopy. cbn [SMART_PTR_copy]. unfold malloc, Lock, Unlock.
    case_draw; intros [= <- _]; done. }
  apply SMART_PTR_copy_Some in Hcopy as (Hc & Hrefs & Hfreed & _).
  injection Hc as ->.
  assert (Hint : in_int (refCount r)) by (unfold in_int, INT_MIN, INT_MAX in *; lia).
  assert (Hr1 : refs w1 !! ref c = Some (incr_refCount r)).
  { rewrite Hrefs. by apply alter_incr_lookup. }
  assert (Hback : wrap_int (refCount (incr_refCount r) - 1) = refCount r).
  { cbn [incr_refCount refCount]. by apply wrap_int_pred_succ. }
  destruct (SMART_PTR_delete_live w1 c _ Hnz Hr1) as [Hf Hrs]; [lia|].
  split; [rewrite Hrs, Hrefs; by apply insert_after_incr|].
  split; [by rewrite Hf, Hfreed|].
  rewrite (SMART_PTR_delete_locks w1 c _ Hnz Hl Hr1), Hback.
  destruct (refCount r =? 0) eqn:Hz; [lia|done].
Qed.

Lemma copy_then_delete_restores_witness :
  let w := mkWorld {[1 := mkRef 1 42 7]} {[1]} [] 0 [] [] [] in
  let h := mkPtr 1 1 in
  refs (SMART_PTR_delete (SMART_PTR_copy w (Some h)).1 (Some h)) = refs w.
Proof.
  intros w h.
  assert (Hr : refs w !! ref h = Some (mkRef 1 42 7)) by reflexivity.
  assert (Hrc : 1 <= refCount (mkRef 1 42 7) < INT_MAX) by (unfold INT_MAX; cbn; lia).
  assert (Hc : SMART_PTR_copy w (Some h) = ((SMART_PTR_copy w (Some h)).1, Some h))
    by reflexivity.
  exact (proj1 (copy_then_delete_restores w h _ _ h ltac:(discriminate)
                  ltac:(discriminate) Hr Hrc Hc)).
Defined.

Lemma delete_times_succ n : forall w h,
  delete_times (S n) w h = SMART_PTR_delete (delete_times n w h) (Some h).
Proof.
  induction n as [|n IH]; intros w h; [done|].
  change (delete_times (S (S n)) w h)
    with (delete_times (S n) (SMART_PTR_delete w (Some h)) h).
  rewrite IH. done.
Qed.

Lemma delete_times_live n : forall w h r,
  ref h <> 0 -> refs w !! ref h = Some r ->
  Z.of_nat n < refCount r <= INT_MAX ->
  freed (delete_times n w h) = freed w /\
  refs (delete_times n w h) !! ref h =
    Some (mkRef (refCount r - Z.of_nat n) (data r) (freeFunc r)).
Proof.
  induction n as [|n IH]; intros w h r Hnz Hr Hrc.
  - cbn [delete_times]. split; [done|]. rewrite Hr. destruct r. cbn. f_equal. f_equal. lia.
  - cbn [delete_times].
    assert (Hw : wrap_int (refCount r - 1) = refCount r - 1).
    { apply wrap_int_id. unfold in_int, INT_MIN, INT_MAX in *. lia. }
    destruct (SMART_PTR_delete_live w h r Hnz Hr) as [Hf Hrs]; [lia|].
    rewrite Hw in Hrs.
    assert (Hr' : refs (SMART_PTR_delete w (Some h)) !! ref h =
                  Some (mkRef (refCount r - 1) (data r) (freeFunc r))).
    { rewrite Hrs. apply lookup_insert_eq. }
    destruct (IH _ h _ Hnz Hr') as [Hf' Hrs']; [cbn; lia|].
    rewrite Hf', Hf, Hrs'. cbn. split; [done|]. f_equal. f_equal. lia.
Qed.

(** A block with count [n] survives [n - 1] deletes, none of which calls
    the destructor; the [n]-th delete calls it, exactly once and with the
    payload, and frees the block. *)
Theorem last_delete_runs_destructor w h r n :
  ref h <> 0 -> refs w !! ref h = Some r ->
  refCount r = Z.of_nat (S n) -> refCount r <= INT_MAX ->
  (forall m, (m <= n)%nat -> freed (delete_times m w h) = freed w) /\
  refs (delete_times n w h) !! ref h = Some (mkRef 1 (data r) (freeFunc r)) /\
  freed (delete_times (S n) w h) = freed w ++ [(freeFunc r, data r)] /\
  refs (delete_times (S n) w h) !! ref h = None.
Proof.
  intros Hnz Hr Hn Hmax.
  assert (Hm : forall m, (m <= n)%nat ->
            freed (delete_times m w h) = freed w /\
            refs (delete_times m w h) !! ref h =
              Some (mkRef (refCount r - Z.of_nat m) (data r) (freeFunc r))).
  { intros m Hle. apply delete_times_live; [done..|lia]. }
  split; [intros m Hle; by apply Hm|].
  destruct (Hm n ltac:(done)) as [Hf Hrs].
  replace (refCount r - Z.of_nat n) with 1 in Hrs by lia.
  split; [done|]. rewrite delete_times_succ.
  destruct (SMART_PTR_delete_last (delete_times n w h) h _ Hnz Hrs) as [Hf' Hrs'];
    [done|].
  rewrite Hf', Hrs', Hf. cbn. split; [done|]. apply lookup_delete_eq.
Qed.

(** Three owners: the third delete runs the destructor. *)
Lemma last_delete_runs_destructor_witness :
  let w := mkWorld {[1 := mkRef 3 42 7]} {[1]} [] 0 [] [] [] in
  let h := mkPtr 1 1 in
  freed (delete_times 2 w h) = [] /\ freed (delete_times 3 w h) = [(7, 42)].
Proof.
  intros w h.
  destruct (last_delete_runs_destructor w h (mkRef 3 42 7) 2)
    as (Hbefore & _ & Hlast & _); try reflexivity; try discriminate.
  split; [apply (Hbefore 2%nat); lia|exact Hlast].
Defined.

(** Copy and delete work on the block of the handle passed in and on no
    other: every other block is as before. *)
Theorem other_blocks_untouched w h a :
  a <> ref h ->
  refs (SMART_PTR_delete w (Some h)) !! a = refs w !! a /\
  refs (SMART_PTR_copy w (Some h)).1 !! a = refs w !! a.
Proof.
  intros Ha. split.
  - rewrite SMART_PTR_delete_refs.
    destruct (ref h =? 0); [done|]. destruct (refs w !! ref h) as [r|]; [|done].
    destruct (_ =? 0); [by rewrite lookup_delete_ne|by rewrite lookup_insert_ne].
  - destruct (SMART_PTR_copy w (Some h)) as [w1 [c|]] eqn:E.
    + apply SMART_PTR_copy_Some in E as (Hc & Hrefs & _). injection Hc as ->.
      cbn [fst]. rewrite Hrefs. by rewrite lookup_alter_ne.
    + pose proof (SMART_PTR_copy_None w (Some h)) as H. rewrite E in H.
      destruct (H eq_refl) as [-> _]. done.
Qed.

Lemma other_blocks_untouched_witness :
  let w := mkWorld {[1 := mkRef 1 42 7; 2 := mkRef 1 5 9]} {[1]} [] 0 [] [] [] in
  refs (SMART_PTR_delete w (Some (mkPtr 1 1))) !! 2 = refs w !! 2.
Proof.
  intros w. apply (other_blocks_untouched w (mkPtr 1 1) 2). discriminate.
Defined.

(** The lock of a smart pointer lives as long as one owner is left: a
    delete that leaves owners keeps it, the delete of the last owner
    deinitialises it. *)
Theorem lock_lives_with_last_owner w h r :
  ref h <> 0 -> lock h <> 0 -> refs w !! ref h = Some r ->
  2 <= refCount r <= INT_MAX ->
  locks (SMART_PTR_delete w (Some h)) = locks w /\
  forall w1 r1, refs w1 !! ref h = Some r1 -> refCount r1 = 1 ->
    locks (SMART_PTR_delete w1 (Some h)) = locks w1 ∖ {[lock h]}.
Proof.
  intros Hnz Hl Hr Hrc. split.
  - rewrite (SMART_PTR_delete_locks w h r Hnz Hl Hr).
    rewrite wrap_int_id by (unfold in_int, INT_MIN, INT_MAX in *; lia).
    destruct (refCount r - 1 =? 0) eqn:E; [lia|done].
  - intros w1 r1 Hr1 Hone.
    rewrite (SMART_PTR_delete_locks w1 h r1 Hnz Hl Hr1), Hone. done.
Qed.

Lemma lock_lives_with_last_owner_witness :
  let w := mkWorld {[1 := mkRef 2 42 7]} {[1]} [] 0 [] [] [] in
  locks (SMART_PTR_delete w (Some (mkPtr 1 1))) = locks w.
Proof.
  intros w.
  refine (proj1 (lock_lives_with_last_owner w (mkPtr 1 1) (mkRef 2 42 7) _ _ _ _));
    try discriminate; try reflexivity.
  unfold INT_MAX. cbn. lia.
Defined.

(** * Further properties of the cache *)

(** ** Lookup *)

(** [find] fails exactly when the id, the list or the output parameter is
    [NULL], and then leaves the variable behind the output parameter as it
    was. Called with all three present it succeeds and writes what the
    model [find] of the two callers reports, whatever the variable held
    before. An entry it reports is the first of the list, has an id that
    compares equal to the one looked up, and is the entry the full scan
    would report; when the full scan finds nothing, [NULL] is written. *)
Theorem find_is_sound id l entry :
  ((find_with_slot id l entry).1 <> 0 <-> id = None \/ l = None \/ entry = None) /\
  ((find_with_slot id l entry).1 <> 0 -> (find_with_slot id l entry).2 = entry) /\
  (forall id_ es old,
     id = Some id_ -> l = Some es -> entry = Some old ->
     (find id l).1 = 0 /\
     find_with_slot id l entry = (0, Some (find id l).2)) /\
  (forall id_ es old i e,
     id = Some id_ -> l = Some es -> entry = Some old ->
     (find_with_slot id l entry).2 = Some (Some (i, e)) ->
     i = 0%nat /\ es !! i = Some e /\
     strncmp id_ (entry_id e) (Z.to_nat MRU_CACHE_MAX_ID_LEN) = 0 /\
     find_spec id_ es = Some (i, e)) /\
  (forall id_ es old,
     id = Some id_ -> l = Some es -> entry = Some old ->
     find_spec id_ es = None ->
     find_with_slot id l entry = (0, Some None)).
Proof.
  assert (Hlink : forall id_ es old,
            (find (Some id_) (Some es)).1 = 0 /\
            find_with_slot (Some id_) (Some es) (Some old) =
              (0, Some (find (Some id_) (Some es)).2)).
  { intros id_ es old. unfold find, find_with_slot. by destruct es. }
  split; [|split; [|split; [|split]]].
  - unfold find_with_slot.
    destruct id as [id_|], l as [[|current rest]|], entry as [old|]; cbn; split;
      try done; try (intros [?|[?|?]]; done); eauto.
  - unfold find_with_slot.
    destruct id as [id_|], l as [[|current rest]|], entry as [old|]; cbn; done.
  - intros id_ es old -> -> ->. apply Hlink.
  - intros id_ es old i e -> -> -> Hslot.
    destruct (Hlink id_ es old) as [Hst Heq]. rewrite Heq in Hslot. cbn [snd] in Hslot.
    destruct (find (Some id_) (Some es)) as [st found] eqn:E. cbn [fst snd] in *.
    subst st. injection Hslot as ->.
    destruct (find_front_only _ _ _ _ _ E) as [-> Hhead].
    split; [done|]. split; [by destruct es|].
    split; [by apply (find_Some_strncmp id_ es 0%nat e)|].
    by apply find_Some_find_spec.
  - intros id_ es old -> -> -> Hnone.
    destruct (Hlink id_ es old) as [_ ->].
    by rewrite (find_spec_None_find _ _ Hnone).
Qed.

(** A lookup that finds the first entry, over stale content of the output
    variable; and a lookup with no output parameter. *)
Lemma find_is_sound_witness :
  let ea := mkEntry "a" None 0 (-1) in
  let eb := mkEntry "b" None 0 (-1) in
  let es := [ea; eb] in
  find_with_slot (Some "a") (Some es) (Some (Some (1%nat, eb))) =
    (0, Some (Some (0%nat, ea))) /\
  find_with_slot (Some "c") (Some es) (Some (Some (1%nat, eb))) = (0, Some None) /\
  (find_with_slot (Some "a") (Some es) None).2 = None.
Proof.
  intros ea eb es.
  destruct (find_is_sound (Some "a") (Some es) (Some (Some (1%nat, eb))))
    as (_ & _ & Hlink & _ & _).
  destruct (find_is_sound (Some "c") (Some es) (Some (Some (1%nat, eb))))
    as (_ & _ & _ & _ & Hnone).
  destruct (find_is_sound (Some "a") (Some es) None) as (_ & Hkeep & _).
  split; [|split].
  - exact (proj2 (Hlink "a" es (Some (1%nat, eb)) eq_refl eq_refl eq_refl)).
  - exact (Hnone "c" es (Some (1%nat, eb)) eq_refl eq_refl eq_refl eq_refl).
  - apply Hkeep. vm_compute. discriminate.
Defined.

Lemma uchar_zero c : uchar c = 0 -> c = Ascii.zero.
Proof.
  unfold uchar. intros H.
  assert (HN : Ascii.N_of_ascii c = 0%N) by lia.
  rewrite <- (Ascii.ascii_N_embedding c), HN. reflexivity.
Qed.

Lemma uchar_inj c1 c2 : uchar c1 - uchar c2 = 0 -> c1 = c2.
Proof.
  unfold uchar. intros H.
  assert (HN : Ascii.N_of_ascii c1 = Ascii.N_of_ascii c2) by lia.
  rewrite <- (Ascii.ascii_N_embedding c1), <- (Ascii.ascii_N_embedding c2).
  by rewrite HN.
Qed.

Lemma strncmp_zero_eq n : forall s1 s2,
  (String.length s1 <= n)%nat -> (String.length s2 <= n)%nat ->
  no_nul s1 = true -> no_nul s2 = true ->
  strncmp s1 s2 n = 0 -> s1 = s2.
Proof.
  induction n as [|n IH]; intros s1 s2 H1 H2 N1 N2 Hcmp.
  - destruct s1, s2; cbn in *; try lia. done.
  - destruct s1 as [|c1 r1], s2 as [|c2 r2]; cbn [strncmp no_nul String.length] in *.
    + done.
    + apply andb_true_iff in N2 as [N2 _].
      assert (c2 = Ascii.zero) as -> by (apply uchar_zero; lia).
      by rewrite Ascii.eqb_refl in N2.
    + apply andb_true_iff in N1 as [N1 _].
      assert (c1 = Ascii.zero) as -> by (by apply uchar_zero).
      by rewrite Ascii.eqb_refl in N1.
    + apply andb_true_iff in N1 as [_ N1]. apply andb_true_iff in N2 as [_ N2].
      destruct (Ascii.eqb c1 c2) eqn:E.
      * apply Ascii.eqb_eq in E as ->. f_equal. apply IH; try done; lia.
      * apply uchar_inj in Hcmp. subst c2. by rewrite Ascii.eqb_refl in E.
Qed.

(** Ids within the bound of 300 bytes are told apart exactly: the entry
    that a lookup reports has the very id looked up, not just one that
    agrees on a prefix. *)
Theorem find_reports_exact_id id es i e :
  strlen id <= MRU_CACHE_MAX_ID_LEN -> strlen (entry_id e) <= MRU_CACHE_MAX_ID_LEN ->
  no_nul id = true -> no_nul (entry_id e) = true ->
  (find (Some id) (Some es)).2 = Some (i, e) ->
  entry_id e = id.
Proof.
  unfold strlen, MRU_CACHE_MAX_ID_LEN. intros H1 H2 N1 N2 Hfind.
  destruct (find (Some id) (Some es)) as [st entry] eqn:E. cbn [snd] in Hfind.
  subst entry.
  assert (st = 0) as ->.
  { unfold find in E. destruct es; by injection E as <- _. }
  apply find_Some_strncmp in E. symmetry.
  apply (strncmp_zero_eq (Z.to_nat 300)); try done; lia.
Qed.

Lemma find_reports_exact_id_witness :
  let e := mkEntry "ab" None 0 (-1) in
  (find (Some "ab") (Some [e])).2 = Some (0%nat, e) /\ entry_id e = "ab".
Proof.
  intros e. split; [reflexivity|].
  apply (find_reports_exact_id "ab" [e] 0%nat e); try reflexivity;
    vm_compute; discriminate.
Defined.

(** ** What the entries of a cache look like *)

(** The two ways a get can leave the cache: as it was, or with the entry
    found taken out and put at the front. *)
Lemma get_cases w c includeExpired id data :
  (get_from_cache w (Some c) includeExpired id data).1.1.2 = Some c \/
  exists i cur,
    find id (Some (dlist c)) = (0, Some (i, cur)) /\
    (negb includeExpired && is_expired w cur) = false /\
    (get_from_cache w (Some c) includeExpired id data).1.1.2 =
      Some (insert_at_start (remove_entry c (Some (i, cur))) (Some cur)).
Proof.
  unfold get_from_cache.
  destruct id as [id_|]; [|by left].
  destruct (MRU_CACHE_MAX_ID_LEN <? strlen id_); [by left|].
  destruct data as [slot|]; [|by left].
  destruct (find (Some id_) (Some (dlist c))) as [ret entry] eqn:Hfind.
  assert (ret = 0) as ->.
  { unfold find in Hfind. destruct (dlist c); by injection Hfind as <- _. }
  cbn [Z.eqb negb].
  destruct entry as [[i cur]|]; [|by left].
  destruct (negb includeExpired && is_expired w cur) eqn:Hexp; [by left|].
  destruct (SMART_PTR_copy w (dataHandle cur)) as [w1 copy].
  right. by exists i, cur.
Qed.

Lemma Forall_removelast {A} (P : A -> Prop) l : Forall P l -> Forall P (removelast l).
Proof.
  intros H. rewrite removelast_firstn_len. by apply Forall_take.
Qed.

Lemma Forall_insert_and_evict (P : MRU_CACHE_ENTRY -> Prop) w c e :
  P e -> Forall P (dlist c) -> Forall P (dlist (insert_and_evict w c e).1).
Proof.
  intros He Hl. rewrite insert_and_evict_cache. cbv zeta.
  destruct (_ <? _); cbn [dlist]; [apply Forall_removelast|]; by constructor.
Qed.

Lemma Forall_prune_loop (P : MRU_CACHE_ENTRY -> Prop) l : forall w n,
  Forall P l -> Forall P (prune_loop w l n).1.2.
Proof.
  induction l as [|entry rest IH]; intros w n Hl; cbn [prune_loop]; [done|].
  inversion Hl as [|? ? He Hrest]; subst.
  destruct (is_expired w entry); [by apply IH|].
  specialize (IH w n Hrest). destruct (prune_loop w rest n) as [[w' l'] n'].
  cbn [fst snd] in *. by constructor.
Qed.

(** In a cache made by [MRU_CACHE_new] and used through the interface,
    every entry has an id within the bound of 300 bytes and a handle that
    is not [NULL]. *)
Theorem reachable_entries_ok k c :
  reachable k c -> Forall entry_ok (dlist c).
Proof.
  induction 1 as [w w' c Hnew | w c op Hreach IH].
  - unfold MRU_CACHE_new in Hnew. destruct (k <? 0); [done|].
    destruct (malloc w) as [[] w1]; [|done]. by injection Hnew as _ <-.
  - unfold run_op. destruct op as [id data e | inc id data | | ].
    + destruct (MRU_CACHE_add w (Some c) id data e) as [[st handle'] w'] eqn:Hadd.
      cbn [fst snd].
      apply add_cases_entry in Hadd
        as [-> | (e0 & wx & c0 & -> & _ & Hh & Hnn & _ & Hid)]; [done|].
      cbn [default]. apply Forall_insert_and_evict.
      * destruct Hid as [(id_ & _ & Hlen & He & _) | (i & cur & Hfind & He & _)];
          unfold entry_ok; rewrite He, Hh.
        -- done.
        -- apply find_front_only in Hfind as [_ Hhead].
           destruct (dlist c) as [|x rest]; [done|]. injection Hhead as ->.
           inversion IH as [|? ? [Hlen _] _]; subst. done.
      * destruct Hid as [(id_ & _ & _ & _ & -> & _) | (i & cur & _ & _ & ->)]; [done|].
        cbn [remove_entry dlist]. by apply Forall_delete.
    + destruct (get_cases w c inc id data) as [-> | (i & cur & Hfind & _ & ->)]; [done|].
      cbn [default insert_at_start remove_entry dlist].
      apply find_front_only in Hfind as [_ Hhead].
      destruct (dlist c) as [|x rest]; [done|]. injection Hhead as ->.
      inversion IH; subst. constructor; [done|]. by apply Forall_delete; constructor.
    + unfold MRU_CACHE_prune.
      pose proof (Forall_prune_loop entry_ok (dlist c) w (numItems c) IH) as H.
      destruct (prune_loop w (dlist c) (numItems c)) as [[w' l'] n']. done.
    + done.
Qed.

(** The cache after a successful add to a fresh cache of capacity 2. *)
Lemma reachable_entries_ok_witness :
  let w := mkWorld {[1 := mkRef 1 42 7]} {[1]} [] 0 [] [] [] in
  let c := run_op w (mkCache 2 0 []) (OpAdd (Some "a") (Some (mkPtr 1 1)) (-1)) in
  length (dlist c) = 1%nat /\ Forall entry_ok (dlist c).
Proof.
  intros w c. split; [reflexivity|].
  apply (reachable_entries_ok 2 c). apply reach_op.
  apply (reach_new 2 w w). reflexivity.
Defined.

(** [MRU_CACHE_size] fails exactly when the cache or the output slot is
    [NULL], and then leaves the slot alone. For a cache made by
    [MRU_CACHE_new] with a capacity below [INT_MAX], the size it reports
    is the number of entries in the list. *)
Theorem size_counts_entries :
  (forall handle size,
     ((MRU_CACHE_size handle size).1 <> 0 <-> handle = None \/ size = None) /\
     ((MRU_CACHE_size handle size).1 <> 0 -> (MRU_CACHE_size handle size).2 = size)) /\
  (forall k c s,
     reachable k c -> k < INT_MAX ->
     MRU_CACHE_size (Some c) (Some s) = (0, Some (Z.of_nat (length (dlist c))))).
Proof.
  split.
  - intros [c|] [s|]; cbn; split; try done; split; try done;
      try (intros [?|?]; done); try (by left); by right.
  - intros k c s Hreach Hk. cbn [MRU_CACHE_size].
    apply reachable_inv in Hreach as (_ & _ & _ & _ & Hlen). by rewrite (Hlen Hk).
Qed.

Lemma size_counts_entries_witness :
  let w := mkWorld {[1 := mkRef 1 42 7]} {[1]} [] 0 [] [] [] in
  let c := run_op w (mkCache 2 0 []) (OpAdd (Some "a") (Some (mkPtr 1 1)) (-1)) in
  MRU_CACHE_size (Some c) (Some 0) = (0, Some 1).
Proof.
  intros w c.
  destruct size_counts_entries as [_ H].
  apply (H 2 c 0).
  - apply reach_op. apply (reach_new 2 w w). reflexivity.
  - unfold INT_MAX. lia.
Defined.

(** ** What an add stores *)

Lemma SMART_PTR_has_value_clock w handle :
  clock (SMART_PTR_has_value w handle).1 = clock w.
Proof.
  unfold SMART_PTR_has_value.
  pose proof (SMART_PTR_get_frame w handle) as (_ & _ & H).
  by destruct (SMART_PTR_get w handle).
Qed.

Lemma insert_and_evict_clock w c e : clock (insert_and_evict w c e).2 = clock w.
Proof.
  destruct (insert_and_evict_world w c e) as [-> | [t ->]]; [done|].
  apply SMART_PTR_delete_clock.
Qed.

(** The list after the insertion and the eviction, when the count is the
    length of the list: the new entry and the old ones, cut to the
    capacity. *)
Lemma insert_and_evict_take k w c e :
  cache_inv k c -> 0 <= k < INT_MAX ->
  (insert_and_evict w c e).1 =
    mkCache k (Z.min (numItems c + 1) k) (take (Z.to_nat k) (e :: dlist c)).
Proof.
  intros (Hk & Hint & Hle & Hlen) Hk0. specialize (Hlen ltac:(lia)).
  rewrite insert_and_evict_cache. cbv zeta. rewrite Hk.
  assert (H1 : wrap_int (numItems c + 1) = numItems c + 1).
  { apply wrap_int_id. unfold in_int, INT_MIN, INT_MAX in *. lia. }
  rewrite H1. destruct (k <? numItems c + 1) eqn:Hcmp.
  - apply Z.ltb_lt in Hcmp.
    replace (numItems c + 1 - 1) with (numItems c) by lia.
    rewrite (wrap_int_id _ Hint). f_equal; [lia|].
    rewrite removelast_firstn_len. cbn [length Nat.pred]. f_equal. lia.
  - apply Z.ltb_ge in Hcmp. f_equal; [lia|].
    rewrite take_ge; [done|]. cbn [length]. lia.
Qed.

(** An add of a handle with payload in a world without faults, in full. *)
Lemma add_exact k w c id h p expiryTimeSec :
  cache_inv k c -> 0 <= k < INT_MAX ->
  strlen id <= MRU_CACHE_MAX_ID_LEN ->
  no_faults w -> live_handle w h p -> p <> 0 ->
  exists w1,
    no_faults w1 /\ clock w1 = clock w /\
    MRU_CACHE_add w (Some c) (Some id) (Some h) expiryTimeSec =
      (0,
       Some match (find (Some id) (Some (dlist c))).2 with
            | None =>
                mkCache k (Z.min (numItems c + 1) k)
                  (take (Z.to_nat k)
                     (mkEntry id (Some h) (clock w) expiryTimeSec :: dlist c))
            | Some (i, cur) =>
                mkCache k (numItems c)
                  (mkEntry (entry_id cur) (Some h) (clock w) expiryTimeSec
                     :: delete i (dlist c))
            end,
       w1).
Proof.
  intros Hinv Hk Hlen Hnf Hlive Hp.
  unfold MRU_CACHE_add. apply Z.ltb_ge in Hlen. rewrite Hlen.
  destruct (SMART_PTR_has_value_no_faults w h p Hnf Hlive Hp) as (Hhas & Hnf1 & Hrefs1).
  pose proof (SMART_PTR_has_value_clock w (Some h)) as Hc1.
  destruct (SMART_PTR_has_value w (Some h)) as [w1 has]. cbn [fst snd] in *.
  subst has. cbn [negb].
  assert (Hlive1 : live_handle w1 h p) by (unfold live_handle; by rewrite Hrefs1).
  destruct (find (Some id) (Some (dlist c))) as [ret entry] eqn:Hfind.
  assert (ret = 0) as ->.
  { unfold find in Hfind. destruct (dlist c); by injection Hfind as <- _. }
  cbn [Z.eqb negb snd].
  destruct entry as [[i cur]|].
  - destruct (SMART_PTR_copy_live w1 h p Hnf1 Hlive1)
      as (w2 & r2 & Hcopy & Hnf2 & Hc2 & _).
    rewrite Hcopy.
    destruct (cache_inv_found k c _ _ i cur Hinv Hfind) as [-> [rest Hl]].
    set (w3 := match dataHandle cur with
               | Some _ => SMART_PTR_delete w2 (dataHandle cur)
               | None => w2
               end).
    assert (Hw3 : no_faults w3 /\ clock w3 = clock w).
    { unfold w3. destruct (dataHandle cur) as [old|].
      - split; [by apply SMART_PTR_delete_no_faults|].
        rewrite SMART_PTR_delete_clock. congruence.
      - split; [done|congruence]. }
    destruct Hw3 as [Hnf3 Hc3].
    rewrite (insert_and_evict_update k w3 c cur rest cur _ Hinv Hl).
    pose proof Hinv as (Hmax & _).
    exists w3. split; [done|]. split; [done|].
    unfold get_time. rewrite Hc3, Hmax, Hl. reflexivity.
  - destruct (malloc_no_faults w1 Hnf1) as (Hok & Hnf2 & Hrefs2 & _ & Hc2).
    destruct (malloc w1) as [ok w2]. cbn [fst snd] in *. subst ok. cbn [negb].
    assert (Hlive2 : live_handle w2 h p) by (unfold live_handle; by rewrite Hrefs2).
    destruct (SMART_PTR_copy_live w2 h p Hnf2 Hlive2)
      as (w3 & r3 & Hcopy & Hnf3 & Hc3 & _).
    rewrite Hcopy.
    destruct (malloc_no_faults w3 Hnf3) as (Hok' & Hnf4 & _ & _ & Hc4).
    destruct (malloc w3) as [ok w4]. cbn [fst snd] in *. subst ok. cbn [negb].
    set (e := mkEntry id (Some h) (get_time w2) expiryTimeSec).
    pose proof (insert_and_evict_take k w4 c e Hinv Hk) as Hc'.
    pose proof (insert_and_evict_clock w4 c e) as Hc5.
    pose proof (insert_and_evict_world w4 c e) as Hw5.
    destruct (insert_and_evict w4 c e) as [c' w5]. cbn [fst snd] in *. subst c'.
    exists w5. split.
    { destruct Hw5 as [->|[t ->]]; [done|]. by apply SMART_PTR_delete_no_faults. }
    split; [congruence|].
    unfold e, get_time. rewrite Hc2, Hc1. reflexivity.
Qed.

(** An id that no entry has, added with a handle with payload in a world
    without faults: the add succeeds; the list is the new entry, made of
    the id, the handle, the time of the call and the expiry, followed by
    the old entries, cut to the capacity, so that in a full cache the last
    (least recently used) entry is the one dropped. *)
Theorem add_new_id_evicts_least_recent k c w id h p expiryTimeSec :
  reachable k c -> k < INT_MAX ->
  strlen id <= MRU_CACHE_MAX_ID_LEN ->
  no_faults w -> live_handle w h p -> p <> 0 ->
  find_spec id (dlist c) = None ->
  exists w1,
    MRU_CACHE_add w (Some c) (Some id) (Some h) expiryTimeSec =
      (0,
       Some (mkCache k (Z.min (numItems c + 1) k)
               (take (Z.to_nat k)
                  (mkEntry id (Some h) (clock w) expiryTimeSec :: dlist c))),
       w1).
Proof.
  intros Hreach Hk Hlen Hnf Hlive Hp Hnone.
  apply reachable_inv in Hreach as [Hk0 Hinv].
  destruct (add_exact k w c id h p expiryTimeSec Hinv ltac:(lia) Hlen Hnf Hlive Hp)
    as (w1 & _ & _ & Hadd).
  rewrite (find_spec_None_find _ _ Hnone) in Hadd. by exists w1.
Qed.

(** Capacity 2, holding "b" and "a": the add of "c" drops "a". *)
Lemma add_new_id_evicts_least_recent_witness :
  let w := mkWorld {[1 := mkRef 1 42 7]} {[1]} [] 5 [] [] [] in
  let h := mkPtr 1 1 in
  let c := run_op w (run_op w (mkCache 2 0 []) (OpAdd (Some "a") (Some h) (-1)))
                  (OpAdd (Some "b") (Some h) (-1)) in
  map entry_id (dlist c) = ["b"; "a"] /\
  exists w1,
    MRU_CACHE_add w (Some c) (Some "c") (Some h) (-1) =
      (0,
       Some (mkCache 2 (Z.min (numItems c + 1) 2)
               (take (Z.to_nat 2) (mkEntry "c" (Some h) (clock w) (-1) :: dlist c))),
       w1).
Proof.
  intros w h c. split; [reflexivity|].
  apply (add_new_id_evicts_least_recent 2 c w "c" h 42 (-1)).
  - do 2 apply reach_op. apply (reach_new 2 w w). reflexivity.
  - unfold INT_MAX. lia.
  - vm_compute. discriminate.
  - repeat split; constructor.
  - exists (mkRef 1 42 7). split; [reflexivity|]. split; [reflexivity|].
    unfold INT_MAX. cbn. lia.
  - discriminate.
  - reflexivity.
Defined.

(** An id that the first entry of the list has, added again: the add
    succeeds and the entry is replaced in place at the front by one with
    the same id, the handle passed in, the time of the call and the new
    expiry; the entries behind it and the count are as before. *)
Theorem add_found_id_replaces_value k c w id h p expiryTimeSec cur rest :
  reachable k c -> k < INT_MAX ->
  strlen id <= MRU_CACHE_MAX_ID_LEN ->
  no_faults w -> live_handle w h p -> p <> 0 ->
  dlist c = cur :: rest ->
  strncmp id (entry_id cur) (Z.to_nat MRU_CACHE_MAX_ID_LEN) = 0 ->
  exists w1,
    MRU_CACHE_add w (Some c) (Some id) (Some h) expiryTimeSec =
      (0,
       Some (mkCache k (numItems c)
               (mkEntry (entry_id cur) (Some h) (clock w) expiryTimeSec :: rest)),
       w1).
Proof.
  intros Hreach Hk Hlen Hnf Hlive Hp Hl Hcmp.
  apply reachable_inv in Hreach as [Hk0 Hinv].
  destruct (add_exact k w c id h p expiryTimeSec Hinv ltac:(lia) Hlen Hnf Hlive Hp)
    as (w1 & _ & _ & Hadd).
  rewrite Hl in Hadd. rewrite (find_front_match id cur rest Hcmp) in Hadd.
  cbn [snd delete list_delete] in Hadd. by exists w1.
Qed.

(** "a" is added at time 5 with expiry 10, then again at time 8 with
    expiry 20. *)
Lemma add_found_id_replaces_value_witness :
  let w := mkWorld {[1 := mkRef 1 42 7]} {[1]} [] 5 [] [] [] in
  let w' := mkWorld {[1 := mkRef 2 42 7]} {[1]} [] 8 [] [] [] in
  let h := mkPtr 1 1 in
  let c := run_op w (mkCache 2 0 []) (OpAdd (Some "a") (Some h) 10) in
  dlist c = [mkEntry "a" (Some h) 5 10] /\
  exists w1,
    MRU_CACHE_add w' (Some c) (Some "a") (Some h) 20 =
      (0, Some (mkCache 2 (numItems c) [mkEntry "a" (Some h) 8 20]), w1).
Proof.
  intros w w' h c. split; [reflexivity|].
  apply (add_found_id_replaces_value 2 c w' "a" h 42 20 (mkEntry "a" (Some h) 5 10) []).
  - apply reach_op. apply (reach_new 2 w w). reflexivity.
  - unfold INT_MAX. lia.
  - vm_compute. discriminate.
  - repeat split; constructor.
  - exists (mkRef 2 42 7). split; [reflexivity|]. split; [reflexivity|].
    unfold INT_MAX. cbn. lia.
  - discriminate.
  - reflexivity.
  - reflexivity.
Defined.

(** ** What a get does *)

(** A get with arguments it accepts always reports success. When the
    lookup finds nothing, the slot is set to [NULL] and nothing else
    changes. When it finds an entry that is not held back as expired, the
    entry is unlinked and put at the front, the count is as before, and
    the slot receives whatever the copy of the entry's handle gives, which
    is [NULL] if that copy fails. *)
Theorem get_hit_and_miss w c includeExpired id slot :
  strlen id <= MRU_CACHE_MAX_ID_LEN -> in_int (numItems c) ->
  (find (Some id) (Some (dlist c)) = (0, None) ->
   get_from_cache w (Some c) includeExpired (Some id) (Some slot) =
     (0, Some c, Some None, w)) /\
  (forall i cur,
     find (Some id) (Some (dlist c)) = (0, Some (i, cur)) ->
     includeExpired = true \/ is_expired w cur = false ->
     get_from_cache w (Some c) includeExpired (Some id) (Some slot) =
       (0, Some (mkCache (maxItems c) (numItems c) (cur :: delete i (dlist c))),
        Some (SMART_PTR_copy w (dataHandle cur)).2,
        (SMART_PTR_copy w (dataHandle cur)).1)).
Proof.
  intros Hlen Hint. apply Z.ltb_ge in Hlen. split.
  - intros Hfind. unfold get_from_cache. by rewrite Hlen, Hfind.
  - intros i cur Hfind Hlive. unfold get_from_cache. rewrite Hlen, Hfind.
    cbn [Z.eqb negb].
    assert (Hexp : negb includeExpired && is_expired w cur = false).
    { destruct Hlive as [-> | ->]; [done|]. by destruct includeExpired. }
    rewrite Hexp. destruct (SMART_PTR_copy w (dataHandle cur)) as [w1 copy].
    cbn [fst snd remove_entry insert_at_start maxItems numItems dlist].
    by rewrite wrap_int_succ_pred.
Qed.

(** The only entry is expired; the get that includes expired entries
    hands out its handle all the same. *)
Lemma get_hit_and_miss_witness :
  let w := mkWorld {[1 := mkRef 1 42 7]} {[1]} [] 50 [] [] [] in
  let e := mkEntry "a" (Some (mkPtr 1 1)) 0 10 in
  let c := mkCache 2 1 [e] in
  (get_from_cache w (Some c) true (Some "a") (Some None)).1 =
    (0, Some c, Some (Some (mkPtr 1 1))) /\
  get_from_cache w (Some c) true (Some "b") (Some None) = (0, Some c, Some None, w).
Proof.
  intros w e c.
  assert (Hlen1 : strlen "a" <= MRU_CACHE_MAX_ID_LEN) by (vm_compute; discriminate).
  assert (Hlen2 : strlen "b" <= MRU_CACHE_MAX_ID_LEN) by (vm_compute; discriminate).
  assert (Hint : in_int (numItems c)) by (vm_compute; split; discriminate).
  destruct (get_hit_and_miss w c true "a" None Hlen1 Hint) as [_ Hhit].
  destruct (get_hit_and_miss w c true "b" None Hlen2 Hint) as [Hmiss _].
  split.
  - rewrite (Hhit 0%nat e eq_refl (or_introl eq_refl)). reflexivity.
  - exact (Hmiss eq_refl).
Defined.

(** [get_from_cache] fails exactly when the cache, the id or the output
    slot is [NULL] or the id is longer than 300 bytes; a failed copy of
    the handle found is no failure of the get. On failure the cache, the
    slot and the world are left alone. *)
Theorem get_fails_only_on_bad_arguments w handle includeExpired id data :
  ((get_from_cache w handle includeExpired id data).1.1.1 = 0 <->
   get_args_ok handle id data) /\
  ((get_from_cache w handle includeExpired id data).1.1.1 <> 0 ->
   get_from_cache w handle includeExpired id data = (FAILURE, handle, data, w)).
Proof.
  unfold get_args_ok, get_from_cache.
  destruct handle as [c|];
    [|split; [split; [done|by intros [? _]]|done]].
  destruct id as [id_|];
    [|split; [split; [done|by intros (_ & _ & ? & ? & _)]|done]].
  destruct (MRU_CACHE_MAX_ID_LEN <? strlen id_) eqn:Hlen.
  { apply Z.ltb_lt in Hlen. split; [|done]. split; [done|].
    intros (_ & _ & id' & [= <-] & Hle). lia. }
  apply Z.ltb_ge in Hlen.
  destruct data as [slot|];
    [|split; [split; [done|by intros (_ & ? & _)]|done]].
  destruct (find (Some id_) (Some (dlist c))) as [ret entry] eqn:Hfind.
  assert (ret = 0) as ->.
  { unfold find in Hfind. destruct (dlist c); by injection Hfind as <- _. }
  cbn [Z.eqb negb].
  assert (Hok : Some c <> None /\ Some slot <> None /\
                exists id', Some id_ = Some id' /\ strlen id' <= MRU_CACHE_MAX_ID_LEN).
  { split; [done|]. split; [done|]. by exists id_. }
  destruct entry as [[i cur]|]; [|done].
  destruct (negb includeExpired && is_expired w cur); [done|].
  by destruct (SMART_PTR_copy w (dataHandle cur)).
Qed.

(** An id of 301 bytes is refused. *)
Lemma get_fails_only_on_bad_arguments_witness :
  let w := mkWorld ∅ ∅ [] 0 [] [] [] in
  let c := mkCache 2 0 [] in
  let id := String.concat EmptyString (repeat "a" 301) in
  get_from_cache w (Some c) false (Some id) (Some None) =
    (FAILURE, Some c, Some None, w).
Proof.
  intros w c id.
  apply (proj2 (get_fails_only_on_bad_arguments w (Some c) false (Some id) (Some None))).
  vm_compute. discriminate.
Defined.

Lemma SMART_PTR_get_keeps_no_faults w handle :
  no_faults w -> no_faults (SMART_PTR_get w handle).1.
Proof.
  intros Hnf. destruct handle as [h|]; [|done]. cbn [SMART_PTR_get].
  destruct (Lock_no_faults w (lock h) Hnf) as (E1 & Hnf1 & _).
  destruct (Lock w (lock h)) as [ret w1]. cbn [fst snd] in *. subst ret.
  destruct (Unlock_no_faults w1 (lock h) Hnf1) as (E2 & Hnf2 & _).
  destruct (Unlock w1 (lock h)) as [ret' w2]. cbn [fst snd] in *. by subst ret'.
Qed.

(** [MRU_CACHE_add] fails when the cache or the id is [NULL] or the id is
    longer than 300 bytes, in any world; in a world without faults these
    are its only failures, whatever handle it is given. *)
Theorem add_fails_only_on_bad_arguments_or_faults w handle id data expiryTimeSec :
  ((MRU_CACHE_add w handle id data expiryTimeSec).1.1 = 0 -> add_args_ok handle id) /\
  (no_faults w -> add_args_ok handle id ->
   (MRU_CACHE_add w handle id data expiryTimeSec).1.1 = 0).
Proof.
  unfold add_args_ok. split.
  - unfold MRU_CACHE_add. destruct handle as [c|]; [|done].
    destruct id as [id_|]; [|done].
    destruct (MRU_CACHE_MAX_ID_LEN <? strlen id_) eqn:Hlen; [done|].
    apply Z.ltb_ge in Hlen. intros _. split; [done|]. by exists id_.
  - intros Hnf (Hh & id_ & -> & Hlen). destruct handle as [c|]; [|done].
    unfold MRU_CACHE_add. apply Z.ltb_ge in Hlen. rewrite Hlen.
    unfold SMART_PTR_has_value.
    pose proof (SMART_PTR_get_keeps_no_faults w data Hnf) as Hnf1.
    assert (Hdata : (SMART_PTR_get w data).2 <> 0 -> exists h, data = Some h).
    { destruct data as [h|]; [intros _; by exists h|done]. }
    destruct (SMART_PTR_get w data) as [w1 ptr]. cbn [fst snd] in *.
    destruct (ptr =? 0) eqn:Hptr; cbn [negb]; [done|].
    apply Z.eqb_neq in Hptr. destruct (Hdata Hptr) as [h ->].
    destruct (find (Some id_) (Some (dlist c))) as [ret entry] eqn:Hfind.
    assert (ret = 0) as ->.
    { unfold find in Hfind. destruct (dlist c); by injection Hfind as <- _. }
    cbn [Z.eqb negb].
    destruct entry as [[i cur]|].
    + destruct (SMART_PTR_copy_no_faults w1 h Hnf1) as [Hc _].
      destruct (SMART_PTR_copy w1 (Some h)) as [w2 copy]. cbn [snd] in Hc. subst copy.
      by destruct (insert_and_evict _ _ _).
    + destruct (malloc_no_faults w1 Hnf1) as (Hok & Hnf2 & _).
      destruct (malloc w1) as [ok w2]. cbn [fst snd] in *. subst ok. cbn [negb].
      destruct (SMART_PTR_copy_no_faults w2 h Hnf2) as [Hc Hnf3].
      destruct (SMART_PTR_copy w2 (Some h)) as [w3 copy]. cbn [fst snd] in *. subst copy.
      destruct (malloc_no_faults w3 Hnf3) as (Hok' & _).
      destruct (malloc w3) as [ok w4]. cbn [fst snd] in *. subst ok. cbn [negb].
      by destruct (insert_and_evict _ _ _).
Qed.

Lemma add_fails_only_on_bad_arguments_or_faults_witness :
  let w := mkWorld {[1 := mkRef 1 42 7]} {[1]} [] 0 [] [] [] in
  let c := mkCache 2 0 [] in
  (MRU_CACHE_add w (Some c) (Some "a") (Some (mkPtr 1 1)) 5).1.1 = 0.
Proof.
  intros w c.
  apply (proj2 (add_fails_only_on_bad_arguments_or_faults
                  w (Some c) (Some "a") (Some (mkPtr 1 1)) 5)).
  - repeat split; constructor.
  - split; [done|]. exists "a". split; [reflexivity|]. vm_compute. discriminate.
Defined.

(** ** Expiry over time *)

(** Once expired, always expired: as long as the clock does not go back,
    an expired entry stays expired. An entry is not expired at the time
    it was created, nor at any earlier reading of the clock. *)
Theorem expiry_is_monotone w w' e :
  (clock w <= clock w' -> is_expired w e = true -> is_expired w' e = true) /\
  (clock w <= created e -> is_expired w e = false).
Proof.
  unfold is_expired, get_time, get_difftime. split.
  - intros Hclock. destruct (expiryInSec e <? 0); [done|].
    rewrite !Z.ltb_lt. lia.
  - intros Hclock. destruct (expiryInSec e <? 0) eqn:E; [done|].
    apply Z.ltb_ge in E. apply Z.ltb_ge. lia.
Qed.

Lemma expiry_is_monotone_witness :
  let w := mkWorld ∅ ∅ [] 11 [] [] [] in
  let w' := mkWorld ∅ ∅ [] 12 [] [] [] in
  let e := mkEntry "a" None 0 10 in
  is_expired w' e = true.
Proof.
  intros w w' e.
  apply (proj1 (expiry_is_monotone w w' e)); [cbn; lia|reflexivity].
Defined.

(** The first entry of the list matches the id and holds the handle [h]:
    what the two gets make of it in a world without faults. *)
Lemma get_front_live w k n e rest id h includeExpired slot :
  strlen id <= MRU_CACHE_MAX_ID_LEN ->
  strncmp id (entry_id e) (Z.to_nat MRU_CACHE_MAX_ID_LEN) = 0 ->
  dataHandle e = Some h -> no_faults w ->
  includeExpired = true \/ is_expired w e = false ->
  exists c2 w2,
    get_from_cache w (Some (mkCache k n (e :: rest))) includeExpired (Some id) (Some slot) =
      (0, Some c2, Some (Some h), w2).
Proof.
  intros Hlen Hcmp Hh Hnf Hlive.
  unfold get_from_cache. apply Z.ltb_ge in Hlen. rewrite Hlen.
  cbn [dlist]. rewrite (find_front_match id e rest Hcmp). cbn [Z.eqb negb].
  assert (Hexp : negb includeExpired && is_expired w e = false).
  { destruct Hlive as [-> | ->]; [done|]. by destruct includeExpired. }
  rewrite Hexp, Hh.
  destruct (SMART_PTR_copy_no_faults w h Hnf) as [Hc _].
  destruct (SMART_PTR_copy w (Some h)) as [w2 copy]. cbn [snd] in Hc. subst copy.
  by eexists _, _.
Qed.

(** The expiry boundary: an entry added at time [t] with an expiry of
    [s >= 0] seconds, into a cache with room for at least one entry. A get
    at a time up to [t + s] hands out the handle. A get after [t + s]
    reports success with no value and leaves the cache alone, the get that
    includes expired entries still hands out the handle, and a prune makes
    the list shorter. *)
Theorem expiry_boundary k c w id h p s w2 slot :
  reachable k c -> 1 <= k < INT_MAX ->
  strlen id <= MRU_CACHE_MAX_ID_LEN ->
  no_faults w -> live_handle w h p -> p <> 0 -> 0 <= s ->
  no_faults w2 ->
  exists c1 w1,
    MRU_CACHE_add w (Some c) (Some id) (Some h) s = (0, Some c1, w1) /\
    (clock w2 - clock w <= s ->
     exists c2 w3,
       MRU_CACHE_get w2 (Some c1) (Some id) (Some slot) = (0, Some c2, Some (Some h), w3)) /\
    (s < clock w2 - clock w ->
     MRU_CACHE_get w2 (Some c1) (Some id) (Some slot) = (0, Some c1, Some None, w2) /\
     (exists c2 w3,
        MRU_CACHE_get_include_expired w2 (Some c1) (Some id) (Some slot) =
          (0, Some c2, Some (Some h), w3)) /\
     (exists c2 w3,
        MRU_CACHE_prune w2 (Some c1) = (0, Some c2, w3) /\
        (length (dlist c2) < length (dlist c1))%nat)).
Proof.
  intros Hreach Hk Hlen Hnf Hlive Hp Hs Hnf2.
  apply reachable_inv in Hreach as [_ Hinv].
  destruct (add_exact k w c id h p s Hinv ltac:(lia) Hlen Hnf Hlive Hp)
    as (w1 & _ & _ & Hadd).
  assert (Hfront : exists n1 e rest,
            MRU_CACHE_add w (Some c) (Some id) (Some h) s =
              (0, Some (mkCache k n1 (e :: rest)), w1) /\
            strncmp id (entry_id e) (Z.to_nat MRU_CACHE_MAX_ID_LEN) = 0 /\
            dataHandle e = Some h /\ created e = clock w /\ expiryInSec e = s).
  { destruct (find (Some id) (Some (dlist c))) as [ret [[i cur]|]] eqn:Hfind;
      cbn [snd] in Hadd.
    - assert (ret = 0) as ->.
      { unfold find in Hfind. destruct (dlist c); by injection Hfind as <- _. }
      eexists _, _, _. split; [exact Hadd|]. cbn.
      split; [by apply (find_Some_strncmp id (dlist c) i cur)|done].
    - destruct (Z.to_nat k) as [|k'] eqn:Ek; [lia|]. cbn [take] in Hadd.
      eexists _, _, _. split; [exact Hadd|]. cbn.
      split; [apply strncmp_refl|done]. }
  destruct Hfront as (n1 & e & rest & Hadd' & Hcmp & Hh & Hcreated & Hexpiry).
  exists (mkCache k n1 (e :: rest)), w1. split; [done|].
  assert (Hexp : is_expired w2 e = (s <? clock w2 - clock w)).
  { unfold is_expired, get_time, get_difftime. rewrite Hcreated, Hexpiry.
    by rewrite (proj2 (Z.ltb_ge _ _) Hs). }
  split.
  - intros Hin. unfold MRU_CACHE_get.
    apply (get_front_live w2 k n1 e rest id h false slot Hlen Hcmp Hh Hnf2).
    right. rewrite Hexp. by apply Z.ltb_ge.
  - intros Hout. apply Z.ltb_lt in Hout. rewrite Hout in Hexp. split; [|split].
    + unfold MRU_CACHE_get, get_from_cache.
      rewrite (proj2 (Z.ltb_ge _ _) Hlen). cbn [dlist].
      rewrite (find_front_match id e rest Hcmp). cbn [Z.eqb negb]. by rewrite Hexp.
    + unfold MRU_CACHE_get_include_expired.
      apply (get_front_live w2 k n1 e rest id h true slot Hlen Hcmp Hh Hnf2).
      by left.
    + unfold MRU_CACHE_prune. cbn [dlist numItems maxItems].
      pose proof (prune_loop_filter w2 (e :: rest) w2 n1 eq_refl) as [Hl _].
      destruct (prune_loop w2 (e :: rest) n1) as [[w3 l'] n']. cbn [fst snd] in Hl.
      eexists _, w3. split; [reflexivity|]. cbn [dlist]. rewrite Hl.
      cbn [List.filter]. rewrite Hexp. cbn [negb length].
      pose proof (filter_length_le (fun e0 => negb (is_expired w2 e0)) rest). lia.
Qed.

(** Added at time 5 with expiry 10: live at time 15, expired at time 16. *)
Lemma expiry_boundary_witness :
  let w := mkWorld {[1 := mkRef 1 42 7]} {[1]} [] 5 [] [] [] in
  let at15 := mkWorld {[1 := mkRef 2 42 7]} {[1]} [] 15 [] [] [] in
  let at16 := mkWorld {[1 := mkRef 2 42 7]} {[1]} [] 16 [] [] [] in
  let h := mkPtr 1 1 in
  let c := mkCache 2 0 [] in
  (exists c1 w1 c2 w3,
     MRU_CACHE_add w (Some c) (Some "a") (Some h) 10 = (0, Some c1, w1) /\
     MRU_CACHE_get at15 (Some c1) (Some "a") (Some None) =
       (0, Some c2, Some (Some h), w3)) /\
  (exists c1 w1,
     MRU_CACHE_add w (Some c) (Some "a") (Some h) 10 = (0, Some c1, w1) /\
     MRU_CACHE_get at16 (Some c1) (Some "a") (Some None) =
       (0, Some c1, Some None, at16)).
Proof.
  intros w at15 at16 h c.
  assert (Hreach : reachable 2 c) by (apply (reach_new 2 w w c); reflexivity).
  assert (Hk : 1 <= 2 < INT_MAX) by (unfold INT_MAX; lia).
  assert (Hlen : strlen "a" <= MRU_CACHE_MAX_ID_LEN) by (vm_compute; discriminate).
  assert (Hnf : no_faults w) by (repeat split; constructor).
  assert (Hnf15 : no_faults at15) by (repeat split; constructor).
  assert (Hnf16 : no_faults at16) by (repeat split; constructor).
  assert (Hlive : live_handle w h 42).
  { exists (mkRef 1 42 7). split; [reflexivity|]. split; [reflexivity|].
    unfold INT_MAX. cbn. lia. }
  split.
  - destruct (expiry_boundary 2 c w "a" h 42 10 at15 None Hreach Hk Hlen Hnf Hlive
                ltac:(discriminate) ltac:(lia) Hnf15) as (c1 & w1 & Hadd & Hin & _).
    destruct (Hin ltac:(cbn; lia)) as (c2 & w3 & Hget).
    by exists c1, w1, c2, w3.
  - destruct (expiry_boundary 2 c w "a" h 42 10 at16 None Hreach Hk Hlen Hnf Hlive
                ltac:(discriminate) ltac:(lia) Hnf16) as (c1 & w1 & Hadd & _ & Hout).
    destruct (Hout ltac:(cbn; lia)) as (Hget & _).
    by exists c1, w1.
Defined.

(** ** Prune, clear and delete *)

Lemma prune_loop_noop l : forall w n,
  Forall (fun e => is_expired w e = false) l -> prune_loop w l n = (w, l, n).
Proof.
  induction l as [|entry rest IH]; intros w n Hl; cbn [prune_loop]; [done|].
  inversion Hl as [|? ? He Hrest]; subst. rewrite He. by rewrite (IH w n Hrest).
Qed.

Lemma filter_unexpired_all w l :
  Forall (fun e => is_expired w e = false)
         (List.filter (fun e => negb (is_expired w e)) l).
Proof.
  apply List.Forall_forall. intros e He. apply filter_In in He as [_ He].
  by apply negb_true_iff.
Qed.

(** The world the prune loop leaves: the handles of the expired entries
    were released, in the order of the list, and nothing else. *)
Lemma prune_loop_world w0 l : forall w n,
  clock w = clock w0 ->
  (prune_loop w l n).1.1 = clear_loop w (List.filter (is_expired w0) l).
Proof.
  induction l as [|entry rest IH]; intros w n Hc; cbn [prune_loop List.filter]; [done|].
  rewrite (is_expired_clock w0 w entry Hc).
  destruct (is_expired w0 entry).
  - cbn [clear_loop]. apply IH. by rewrite free_entry_clock.
  - specialize (IH w n Hc). by destruct (prune_loop w rest n) as [[w' l'] n'].
Qed.

(** A prune that finds nothing expired leaves the cache and the world as
    they are; so a second prune right after a first one changes nothing. *)
Theorem prune_is_idempotent w c :
  (Forall (fun e => is_expired w e = false) (dlist c) ->
   MRU_CACHE_prune w (Some c) = (0, Some c, w)) /\
  (forall c1 w1,
     MRU_CACHE_prune w (Some c) = (0, Some c1, w1) ->
     MRU_CACHE_prune w1 (Some c1) = (0, Some c1, w1)).
Proof.
  assert (Hnoop : forall w' c', Forall (fun e => is_expired w' e = false) (dlist c') ->
            MRU_CACHE_prune w' (Some c') = (0, Some c', w')).
  { intros w' c' Hl. unfold MRU_CACHE_prune. rewrite (prune_loop_noop _ _ _ Hl).
    by destruct c'. }
  split; [apply Hnoop|].
  intros c1 w1 Hprune. apply Hnoop.
  unfold MRU_CACHE_prune in Hprune.
  pose proof (prune_loop_filter w (dlist c) w (numItems c) eq_refl) as [Hl Hclock].
  destruct (prune_loop w (dlist c) (numItems c)) as [[w' l'] n']. cbn [fst snd] in *.
  injection Hprune as <- <-. cbn [dlist]. subst l'.
  eapply Forall_impl; [apply (filter_unexpired_all w)|].
  intros e He. cbn beta in *. by rewrite (is_expired_clock w w' e Hclock).
Qed.

Lemma prune_is_idempotent_witness :
  let w := mkWorld {[1 := mkRef 2 42 7]} {[1]} [] 50 [] [] [] in
  let h := Some (mkPtr 1 1) in
  let c := mkCache 3 2 [mkEntry "b" h 45 10; mkEntry "a" h 0 10] in
  let c1 := mkCache 3 1 [mkEntry "b" h 45 10] in
  let w1 := (MRU_CACHE_prune w (Some c)).2 in
  MRU_CACHE_prune w (Some c) = (0, Some c1, w1) /\
  MRU_CACHE_prune w1 (Some c1) = (0, Some c1, w1).
Proof.
  intros w h c c1 w1.
  assert (H : MRU_CACHE_prune w (Some c) = (0, Some c1, w1)) by reflexivity.
  split; [exact H|].
  exact (proj2 (prune_is_idempotent w c) c1 w1 H).
Defined.

(** A prune of a reachable cache, in full. *)
Lemma prune_exact k w c :
  reachable k c -> k < INT_MAX ->
  exists n1 w1,
    MRU_CACHE_prune w (Some c) =
      (0, Some (mkCache (maxItems c) n1
                  (List.filter (fun e => negb (is_expired w e)) (dlist c))), w1) /\
    n1 = numItems c - Z.of_nat (length (List.filter (is_expired w) (dlist c))) /\
    n1 = Z.of_nat (length (List.filter (fun e => negb (is_expired w e)) (dlist c))) /\
    w1 = clear_loop w (List.filter (is_expired w) (dlist c)).
Proof.
  intros Hreach Hk. apply reachable_inv in Hreach as (_ & _ & Hint & _ & Hlen).
  specialize (Hlen Hk). unfold MRU_CACHE_prune.
  pose proof (prune_loop_count (dlist c) w (numItems c) Hint) as (_ & _ & Hn).
  pose proof (prune_loop_filter w (dlist c) w (numItems c) eq_refl) as [Hl _].
  pose proof (prune_loop_world w (dlist c) w (numItems c) eq_refl) as Hw.
  destruct (prune_loop w (dlist c) (numItems c)) as [[w' l'] n']. cbn [fst snd] in *.
  exists n', w'. subst l'. split; [done|].
  specialize (Hn ltac:(lia)).
  pose proof (List.filter_length (is_expired w) (dlist c)) as Hsum.
  split; [lia|]. split; [lia|done].
Qed.

(** A prune of a cache made by [MRU_CACHE_new] (capacity below [INT_MAX])
    takes the count down by exactly the number of expired entries, and its
    effect on the world is the release of the handles of the expired
    entries, in the order of the list. *)
Theorem prune_counts_and_releases k w c :
  reachable k c -> k < INT_MAX ->
  exists c1 w1,
    MRU_CACHE_prune w (Some c) = (0, Some c1, w1) /\
    numItems c1 = numItems c - Z.of_nat (length (List.filter (is_expired w) (dlist c))) /\
    numItems c1 = Z.of_nat (length (dlist c1)) /\
    w1 = clear_loop w (List.filter (is_expired w) (dlist c)).
Proof.
  intros Hreach Hk.
  destruct (prune_exact k w c Hreach Hk) as (n1 & w1 & Hp & Hn & Hlen & Hw).
  eexists _, w1. split; [exact Hp|]. cbn [numItems dlist]. done.
Qed.

Lemma prune_counts_and_releases_witness :
  let w := mkWorld {[1 := mkRef 1 42 7]} {[1]} [] 5 [] [] [] in
  let late := mkWorld {[1 := mkRef 2 42 7]} {[1]} [] 50 [] [] [] in
  let c := run_op w (mkCache 2 0 []) (OpAdd (Some "a") (Some (mkPtr 1 1)) 10) in
  exists c1 w1,
    MRU_CACHE_prune late (Some c) = (0, Some c1, w1) /\ numItems c1 = 0.
Proof.
  intros w late c.
  destruct (prune_counts_and_releases 2 late c) as (c1 & w1 & Hprune & Hn & _).
  - apply reach_op. apply (reach_new 2 w w). reflexivity.
  - unfold INT_MAX. lia.
  - exists c1, w1. split; [exact Hprune|]. rewrite Hn. reflexivity.
Defined.

(** When every entry of a cache made by [MRU_CACHE_new] (capacity below
    [INT_MAX]) is expired, a prune does what a clear does: same status,
    same empty cache, same world. *)
Theorem prune_of_all_expired_is_clear k w c :
  reachable k c -> k < INT_MAX ->
  Forall (fun e => is_expired w e = true) (dlist c) ->
  MRU_CACHE_prune w (Some c) = MRU_CACHE_clear w (Some c).
Proof.
  intros Hreach Hk Hall.
  destruct (prune_exact k w c Hreach Hk) as (n1 & w1 & -> & _ & Hn & ->).
  assert (Hf : List.filter (is_expired w) (dlist c) = dlist c).
  { apply forallb_filter_id. apply forallb_forall. intros e He.
    by apply (proj1 (List.Forall_forall _ _) Hall). }
  assert (Hnil : List.filter (fun e => negb (is_expired w e)) (dlist c) = []).
  { clear -Hall. induction Hall as [|e l He _ IH]; [done|].
    cbn [List.filter]. by rewrite He. }
  unfold MRU_CACHE_clear. rewrite Hf. rewrite Hnil in *. by subst n1.
Qed.

Lemma prune_of_all_expired_is_clear_witness :
  let w := mkWorld {[1 := mkRef 1 42 7]} {[1]} [] 5 [] [] [] in
  let late := mkWorld {[1 := mkRef 2 42 7]} {[1]} [] 50 [] [] [] in
  let c := run_op w (mkCache 2 0 []) (OpAdd (Some "a") (Some (mkPtr 1 1)) 10) in
  MRU_CACHE_prune late (Some c) = MRU_CACHE_clear late (Some c).
Proof.
  intros w late c.
  apply (prune_of_all_expired_is_clear 2 late c).
  - apply reach_op. apply (reach_new 2 w w). reflexivity.
  - unfold INT_MAX. lia.
  - repeat constructor.
Defined.

Lemma SMART_PTR_copy_frame_no_faults w h :
  no_faults w ->
  exists w1,
    SMART_PTR_copy w (Some h) = (w1, Some h) /\ no_faults w1 /\
    refs w1 = alter incr_refCount (ref h) (refs w) /\ freed w1 = freed w.
Proof.
  intros Hnf. destruct (SMART_PTR_copy_no_faults w h Hnf) as [Hc Hnf'].
  destruct (SMART_PTR_copy w (Some h)) as [w1 copy] eqn:E. cbn [fst snd] in *.
  subst copy. apply SMART_PTR_copy_Some in E as (_ & Hrefs & Hfreed & _).
  by exists w1.
Qed.

(** The cache owns a reference of its own. A value whose only owner is the
    caller is added to a new cache; when the caller then releases its
    handle no destructor runs and the payload can still be read; the
    destructor runs, once and with the payload, when the cache is cleared
    or deleted. *)
Theorem cache_keeps_value_alive k w0 w0' c w id h p f expiryTimeSec :
  MRU_CACHE_new w0 k = (w0', Some c) -> 1 <= k <= INT_MAX ->
  strlen id <= MRU_CACHE_MAX_ID_LEN ->
  no_faults w -> ref h <> 0 -> refs w !! ref h = Some (mkRef 1 p f) -> p <> 0 ->
  exists c1 w1,
    MRU_CACHE_add w (Some c) (Some id) (Some h) expiryTimeSec = (0, Some c1, w1) /\
    let w2 := SMART_PTR_delete w1 (Some h) in
    freed w2 = freed w /\
    (SMART_PTR_get w2 (Some h)).2 = p /\
    freed (MRU_CACHE_delete w2 (Some c1)) = freed w ++ [(f, p)] /\
    refs (MRU_CACHE_delete w2 (Some c1)) !! ref h = None /\
    MRU_CACHE_clear w2 (Some c1) = (0, Some (mkCache k 0 []), MRU_CACHE_delete w2 (Some c1)).
Proof.
  intros Hnew Hk Hlen Hnf Hnz Hr Hp.
  assert (c = mkCache k 0 []) as ->.
  { unfold MRU_CACHE_new in Hnew. destruct (k <? 0); [done|].
    destruct (malloc w0) as [[] ?]; [|done]. by injection Hnew as _ <-. }
  assert (Hlive : live_handle w h p).
  { exists (mkRef 1 p f). split; [done|]. split; [done|]. unfold INT_MAX. cbn. lia. }
  unfold MRU_CACHE_add. apply Z.ltb_ge in Hlen. rewrite Hlen.
  destruct (SMART_PTR_has_value_no_faults w h p Hnf Hlive Hp) as (Hhas & Hnf1 & Hrefs1).
  assert (Hfreed1 : freed (SMART_PTR_has_value w (Some h)).1 = freed w).
  { unfold SMART_PTR_has_value.
    pose proof (SMART_PTR_get_frame w (Some h)) as (_ & H & _).
    by destruct (SMART_PTR_get w (Some h)). }
  destruct (SMART_PTR_has_value w (Some h)) as [w1 has]. cbn [fst snd] in *.
  subst has. cbn [negb find dlist Z.eqb].
  destruct (malloc_no_faults w1 Hnf1) as (Hok & Hnf2 & Hrefs2 & Hfreed2 & _).
  destruct (malloc w1) as [ok w2]. cbn [fst snd] in *. subst ok. cbn [negb].
  destruct (SMART_PTR_copy_frame_no_faults w2 h Hnf2) as (w3 & -> & Hnf3 & Hrefs3 & Hfreed3).
  destruct (malloc_no_faults w3 Hnf3) as (Hok' & Hnf4 & Hrefs4 & Hfreed4 & _).
  destruct (malloc w3) as [ok w4]. cbn [fst snd] in *. subst ok. cbn [negb].
  unfold insert_and_evict. cbn [insert_at_start maxItems numItems dlist].
  change (wrap_int (0 + 1)) with 1.
  rewrite (proj2 (Z.ltb_ge k 1)) by lia.
  eexists _, w4. split; [reflexivity|]. cbv zeta.
  assert (Hr4 : refs w4 !! ref h = Some (mkRef 2 p f)).
  { rewrite Hrefs4, Hrefs3, Hrefs2, Hrefs1.
    rewrite (alter_incr_lookup _ _ _ Hr). reflexivity. }
  destruct (SMART_PTR_delete_live w4 h _ Hnz Hr4) as [Hf5 Hrs5]; [done|].
  change (wrap_int (refCount (mkRef 2 p f) - 1)) with 1 in Hrs5.
  cbn [data freeFunc] in Hrs5.
  set (w5 := SMART_PTR_delete w4 (Some h)) in *.
  assert (Hr5 : refs w5 !! ref h = Some (mkRef 1 p f)).
  { rewrite Hrs5. apply lookup_insert_eq. }
  assert (Hnf5 : no_faults w5) by (by apply SMART_PTR_delete_no_faults).
  destruct (SMART_PTR_delete_last w5 h _ Hnz Hr5) as [Hf6 Hrs6]; [done|].
  cbn [MRU_CACHE_delete MRU_CACHE_clear clear_loop dlist snd dataHandle maxItems].
  unfold free_entry.
  split; [congruence|].
  split; [by destruct (SMART_PTR_get_no_faults w5 h _ Hnf5 Hr5) as [-> _]|].
  split; [by rewrite Hf6, Hf5, Hfreed4, Hfreed3, Hfreed2, Hfreed1|].
  split; [rewrite Hrs6; apply lookup_delete_eq|done].
Qed.

Lemma cache_keeps_value_alive_witness :
  let w := mkWorld {[1 := mkRef 1 42 7]} {[1]} [] 0 [] [] [] in
  let h := mkPtr 1 1 in
  exists c1 w1,
    MRU_CACHE_add w (Some (mkCache 2 0 [])) (Some "a") (Some h) (-1) = (0, Some c1, w1) /\
    freed (SMART_PTR_delete w1 (Some h)) = [] /\
    freed (MRU_CACHE_delete (SMART_PTR_delete w1 (Some h)) (Some c1)) = [(7, 42)].
Proof.
  intros w h.
  assert (Hnew : MRU_CACHE_new w 2 = (w, Some (mkCache 2 0 []))) by reflexivity.
  assert (Hk : 1 <= 2 <= INT_MAX) by (unfold INT_MAX; lia).
  assert (Hlen : strlen "a" <= MRU_CACHE_MAX_ID_LEN) by (vm_compute; discriminate).
  assert (Hnf : no_faults w) by (repeat split; constructor).
  assert (Hr : refs w !! ref h = Some (mkRef 1 42 7)) by reflexivity.
  destruct (cache_keeps_value_alive 2 w w (mkCache 2 0 []) w "a" h 42 7 (-1)
              Hnew Hk Hlen Hnf ltac:(discriminate) Hr ltac:(discriminate))
    as (c1 & w1 & Hadd & Hfreed & _ & Hdel & _).
  exists c1, w1. split; [exact Hadd|]. split; [exact Hfreed|exact Hdel].
Defined.

(** ** Runs of adds *)

Lemma take_cons_take {A} (k : nat) (x : A) l :
  take k (x :: take k l) = take k (x :: l).
Proof.
  destruct k as [|k]; [done|]. cbn [take]. f_equal.
  rewrite take_take. f_equal. lia.
Qed.

Lemma strncmp_distinct id1 id2 :
  strlen id1 <= MRU_CACHE_MAX_ID_LEN -> strlen id2 <= MRU_CACHE_MAX_ID_LEN ->
  no_nul id1 = true -> no_nul id2 = true -> id1 <> id2 ->
  strncmp id1 id2 (Z.to_nat MRU_CACHE_MAX_ID_LEN) <> 0.
Proof.
  unfold strlen, MRU_CACHE_MAX_ID_LEN. intros H1 H2 N1 N2 Hne Hcmp. apply Hne.
  apply (strncmp_zero_eq (Z.to_nat 300)); try done; lia.
Qed.

(** The ids in the cache after a run of adds of distinct ids, on top of
    the distinct ids [done] added before. *)
Lemma add_seq_ids k h p expiryTimeSec : forall steps c done,
  reachable k c -> k < INT_MAX -> p <> 0 ->
  Forall (good_step h p) steps ->
  Forall (fun id => strlen id <= MRU_CACHE_MAX_ID_LEN /\ no_nul id = true) done ->
  NoDup (done ++ map snd steps) ->
  map entry_id (dlist c) = take (Z.to_nat k) (rev done) ->
  map entry_id (dlist (add_seq c h expiryTimeSec steps)) =
    take (Z.to_nat k) (rev (done ++ map snd steps)).
Proof.
  induction steps as [|[w id] rest IH]; intros c done Hreach Hk Hp Hsteps Hdone Hnd Hids.
  - cbn [add_seq map]. by rewrite app_nil_r.
  - cbn [add_seq map snd].
    inversion Hsteps as [|? ? (Hnf & Hlive & Hlen & Hnn) Hrest]; subst.
    cbn [fst snd] in *.
    assert (Hnotin : id ∉ done).
    { intros Hin. apply NoDup_app in Hnd as (_ & Hdisj & _).
      apply (Hdisj id Hin). by left. }
    assert (Hfind : find (Some id) (Some (dlist c)) = (0, None)).
    { unfold find. destruct (dlist c) as [|cur l] eqn:Hl; [done|].
      assert (Hcur : entry_id cur ∈ done).
      { apply list_elem_of_In, in_rev, list_elem_of_In.
        apply (subseteq_take (Z.to_nat k)). rewrite <- Hids. cbn [map]. by left. }
      destruct (proj1 (Forall_forall _ _) Hdone _ Hcur) as [Hlc Hnc].
      assert (Hne : id <> entry_id cur) by (intros ->; done).
      pose proof (strncmp_distinct id (entry_id cur) Hlen Hlc Hnn Hnc Hne) as Hcmp.
      apply Z.eqb_neq in Hcmp. by rewrite Hcmp. }
    pose proof Hreach as Hreach0. apply reachable_inv in Hreach0 as [Hk0 Hinv].
    destruct (add_exact k w c id h p expiryTimeSec Hinv ltac:(lia) Hlen Hnf Hlive Hp)
      as (w1 & _ & _ & Hadd).
    rewrite Hfind in Hadd. cbn [snd] in Hadd.
    replace (done ++ id :: map snd rest) with ((done ++ [id]) ++ map snd rest)
      by (by rewrite <- app_assoc).
    apply IH; try done.
    + by apply reach_op.
    + apply Forall_app. split; [done|]. by constructor.
    + by rewrite <- app_assoc.
    + unfold run_op. rewrite Hadd. cbn [fst snd default]. unfold Datatypes.id.
      cbn [dlist]. rewrite <- firstn_map. cbn [map entry_id]. rewrite Hids.
      rewrite take_cons_take. by rewrite rev_unit.
Qed.

(** Recency order over a run of adds: distinct ids added one after the
    other to a new cache of capacity [k] leave exactly the [k] ids added
    last, the most recent first; the size never exceeds [k]. *)
Theorem adds_keep_most_recent k w0 w0' c h p expiryTimeSec steps :
  MRU_CACHE_new w0 k = (w0', Some c) -> k < INT_MAX -> p <> 0 ->
  Forall (good_step h p) steps ->
  NoDup (map snd steps) ->
  map entry_id (dlist (add_seq c h expiryTimeSec steps)) =
    take (Z.to_nat k) (rev (map snd steps)) /\
  numItems (add_seq c h expiryTimeSec steps) =
    Z.min (Z.of_nat (length steps)) k.
Proof.
  intros Hnew Hk Hp Hsteps Hnd.
  assert (Hreach : reachable k c) by (by apply (reach_new k w0 w0' c)).
  assert (Hc : dlist c = []).
  { unfold MRU_CACHE_new in Hnew. destruct (k <? 0); [done|].
    destruct (malloc w0) as [[] ?]; [|done]. by injection Hnew as _ <-. }
  assert (Hids : map entry_id (dlist (add_seq c h expiryTimeSec steps)) =
                 take (Z.to_nat k) (rev (map snd steps))).
  { apply (add_seq_ids k h p expiryTimeSec steps c []); try done.
    rewrite Hc. cbn. by rewrite take_nil. }
  split; [done|].
  assert (Hreach' : reachable k (add_seq c h expiryTimeSec steps)).
  { clear -Hreach. revert c Hreach. induction steps as [|[w id] rest IH]; intros c Hreach;
      cbn [add_seq]; [done|]. apply IH. by apply reach_op. }
  apply reachable_inv in Hreach' as (Hk0 & _ & _ & _ & Hlen).
  rewrite (Hlen Hk). apply (f_equal (@length string)) in Hids.
  rewrite length_map in Hids. rewrite Hids.
  rewrite length_take, length_rev, length_map. lia.
Qed.

(** Capacity 2; "a", "b", "c" are added in this order. *)
Lemma adds_keep_most_recent_witness :
  let w := mkWorld {[1 := mkRef 1 42 7]} {[1]} [] 0 [] [] [] in
  let h := mkPtr 1 1 in
  let c := add_seq (mkCache 2 0 []) h (-1) [(w, "a"); (w, "b"); (w, "c")] in
  map entry_id (dlist c) = ["c"; "b"] /\ numItems c = 2.
Proof.
  intros w h c.
  assert (Hnew : MRU_CACHE_new w 2 = (w, Some (mkCache 2 0 []))) by reflexivity.
  assert (Hk : 2 < INT_MAX) by (unfold INT_MAX; lia).
  assert (Hgood : forall id, strlen id <= MRU_CACHE_MAX_ID_LEN -> no_nul id = true ->
            good_step h 42 (w, id)).
  { intros id Hlen Hnn. split; [repeat split; constructor|]. split; [|done].
    exists (mkRef 1 42 7). split; [reflexivity|]. split; [reflexivity|].
    unfold INT_MAX. cbn. lia. }
  assert (Hsteps : Forall (good_step h 42) [(w, "a"); (w, "b"); (w, "c")]).
  { repeat constructor; apply Hgood; try reflexivity; vm_compute; discriminate. }
  assert (Hnd : NoDup (map snd [(w, "a"); (w, "b"); (w, "c")])).
  { cbn [map snd]. apply NoDup_cons. split; [|apply NoDup_cons; split;
      [|apply NoDup_singleton]].
    - intros H. apply list_elem_of_In in H. cbn in H.
      destruct H as [H|[H|[]]]; discriminate.
    - intros H. apply list_elem_of_In in H. cbn in H.
      destruct H as [H|[]]; discriminate. }
  exact (adds_keep_most_recent 2 w w (mkCache 2 0 []) h 42 (-1) _ Hnew Hk
           ltac:(discriminate) Hsteps Hnd).
Defined.
